(** * RedGiant: the event index, the feature cache and index start-up

    A shallow embedding of
    - [core/impl/base_event_index-inl.h] (class template [BaseEventIndex]),
    - [model/feature_cache.cc] (class [FeatureCache]),
    - the index start-up stage of [server_main] in [main.cc],
    together with the properties of these operations.

    The classes the event index is built on, [BaseIndex] (posting store and
    changeset) and [ExpireTable], are declared in headers outside this
    slice of the repository.  Their operations are modelled after the design
    document; every such definition says so in its doc comment. *)

From Stdlib Require Import ZArith NArith List Bool Lia Sorted PrimFloat.
From stdpp Require Import base option list gmap strings.
Import ListNotations.

Set Default Proof Using "Type".

(** * Part I: the model *)

(** ** Machine integers *)

(** [int] is a 32-bit two's-complement integer and [size_t] a 64-bit
    unsigned one.  Both are kept in [Z]; a result that leaves the range is
    reduced modulo the word size. *)
Module MachineInt.

Definition INT_MAX : Z := 2 ^ 31 - 1.
Definition INT_MIN : Z := - 2 ^ 31.

Definition to_int (z : Z) : Z := ((z + 2 ^ 31) mod 2 ^ 32 - 2 ^ 31)%Z.
Definition to_size_t (z : Z) : Z := (z mod 2 ^ 64)%Z.

(** [a += b] on an [int] lvalue; when [b] is a [size_t] the sum is formed
    in [size_t] and converted back, which is the same residue. *)
Definition int_add (a b : Z) : Z := to_int (a + b).
(** [a += b] on a [size_t] lvalue. *)
Definition size_add (a b : Z) : Z := to_size_t (a + b).

End MachineInt.
Import MachineInt.

(** ** A state monad for member functions

    A member function that reads and writes the fields of its object is a
    function from the object to a result and the updated object.  The
    monad is registered with stdpp's [mret]/[mbind], so that bodies are
    written with [x ← m; k] and [m ;; k]. *)
Module StateMonad.

Definition State (S A : Type) : Type := S → A * S.

#[global] Instance state_ret {S} : MRet (State S) := λ A a s, (a, s).
#[global] Instance state_bind {S} : MBind (State S) :=
  λ A B f m s, let '(a, s') := m s in f a s'.

Definition gets {S A} (f : S → A) : State S A := λ s, (f s, s).
Definition modify {S} (f : S → S) : State S unit := λ s, (tt, f s).

End StateMonad.
Import StateMonad.

(** ** Identifiers

    [DocTraits::DocId] and [DocTraits::TermId] are unsigned 64-bit
    identifiers that are only compared and hashed; [DocTraits::ExpireTime]
    is a signed number of seconds that is only compared.  The weight type
    [DocTraits::TermWeight] stays a type parameter, as in the template. *)
Abbreviation DocId := N (only parsing).
Abbreviation TermId := N (only parsing).
Abbreviation ExpireTime := Z (only parsing).

(** The key of the expiration table, built in [update_expire_internal] as
    [{term_id, doc_id}] and read back in [apply] through its fields. *)
Record Key := { term_id : TermId; doc_id : DocId }.

Definition key_eqb (a b : Key) : bool :=
  (term_id a =? term_id b)%N && (doc_id a =? doc_id b)%N.

(** ** Posting store *)

(** Modelled from the spec: the per-term posting lists of [BaseIndex]
    (core/impl/base_index.h and the posting-list classes are not part of this
    slice).  A posting list is a sequence of [(DocId, TermWeight)] sorted
    ascending by [DocId] without duplicates; [upsert] inserts or replaces,
    [remove] deletes and is a no-op when the posting is absent; the list of a
    term is created on its first upsert and retained when it becomes
    empty. *)
Module PostingStore.

Abbreviation PostingList TermWeight := (list (N * TermWeight)).
Abbreviation PostingIndex TermWeight := (gmap N (PostingList TermWeight)).

Section PostingStore.
Context {TermWeight : Type}.
Implicit Types (l : PostingList TermWeight) (idx : PostingIndex TermWeight).

Fixpoint list_upsert (doc : DocId) (w : TermWeight) l : PostingList TermWeight :=
  match l with
  | [] => [(doc, w)]
  | (d, w') :: rest =>
      if (doc <? d)%N then (doc, w) :: l
      else if (doc =? d)%N then (doc, w) :: rest
      else (d, w') :: list_upsert doc w rest
  end.

Definition list_remove (doc : DocId) l : PostingList TermWeight :=
  List.filter (fun e => negb (fst e =? doc)%N) l.

Fixpoint list_find (doc : DocId) l : option TermWeight :=
  match l with
  | [] => None
  | (d, w) :: rest => if (d =? doc)%N then Some w else list_find doc rest
  end.

Definition empty_index : PostingIndex TermWeight := ∅.

(** [lookup(term)]: the posting list a reader sees for [term]. *)
Definition lookup (term : TermId) idx : PostingList TermWeight :=
  default [] (idx !! term).

Definition upsert (term : TermId) (doc : DocId) (w : TermWeight) idx
  : PostingIndex TermWeight :=
  <[term := list_upsert doc w (lookup term idx)]> idx.

Definition remove (term : TermId) (doc : DocId) idx : PostingIndex TermWeight :=
  alter (list_remove doc) term idx.

(** The weight of the posting [(term, doc)], if a reader finds it. *)
Definition posting (term : TermId) (doc : DocId) idx : option TermWeight :=
  list_find doc (lookup term idx).

End PostingStore.
End PostingStore.

(** ** Snapshot sink *)

(** Modelled from the spec: the snapshot written through a [Dumper] (the
    dumper classes are not part of this slice).  The postings section holds,
    for each term, [TermId | count | count × (DocId | TermWeight)]; the
    expiration section holds [count | count × (TermId | DocId | ExpireTime)].
    The sink keeps the items in the order in which they were written; the
    byte encoding is not modelled. *)
Module Snapshot.

Inductive DumpItem (TermWeight : Type) : Type :=
| TermPostings (term : TermId) (count : Z) (postings : list (N * TermWeight))
| Expirations (count : Z) (entries : list (Key * Z)).
Arguments TermPostings {TermWeight} term count postings.
Arguments Expirations {TermWeight} count entries.

Abbreviation Dumper TermWeight := (list (DumpItem TermWeight)).

End Snapshot.

(** ** Expiration table *)

(** Modelled from the spec: class [ExpireTable] (core/impl/expire_table.h is
    not part of this slice).  The table is a priority queue over
    [(TermId, DocId)] keys ordered by expire-time; it is kept here as the
    queue's minimum-first view, a list of [(key, expire_time)] in ascending
    expire-time, entries with equal expire-time in arrival order.

    - [update(key, expire_time)] replaces any prior deadline of the key;
    - [expire_with_limit(now, max_batch)] pops the keys whose expire-time is
      [≤ now], at most [max_batch] of them, and then, while more than
      [max_batch] pairs remain (the caller passes its [max_size_]), goes on
      popping the oldest entries; the popped pairs are returned in
      ascending-deadline order;
    - [size()] is the number of tracked pairs;
    - [dump(sink)] writes the expiration section. *)
Module ExpireTable.

Abbreviation ExpVec := (list (Key * Z)).
Abbreviation ExpireTable := (list (Key * Z)).

Definition empty : ExpireTable := [].

Definition size (tbl : ExpireTable) : Z := Z.of_nat (length tbl).

Fixpoint find (key : Key) (tbl : ExpireTable) : option ExpireTime :=
  match tbl with
  | [] => None
  | (k, t) :: rest => if key_eqb k key then Some t else find key rest
  end.

Definition erase (key : Key) (tbl : ExpireTable) : ExpireTable :=
  List.filter (fun e => negb (key_eqb (fst e) key)) tbl.

Fixpoint enqueue (key : Key) (expire_time : ExpireTime) (tbl : ExpireTable)
  : ExpireTable :=
  match tbl with
  | [] => [(key, expire_time)]
  | e :: rest =>
      if (expire_time <? snd e)%Z then (key, expire_time) :: tbl
      else e :: enqueue key expire_time rest
  end.

Definition update (key : Key) (expire_time : ExpireTime) (tbl : ExpireTable)
  : ExpireTable :=
  enqueue key expire_time (erase key tbl).

(** Deadline pops: the head of the queue is popped while it is due and the
    batch is not full. *)
Fixpoint pop_due (now : ExpireTime) (max_batch : Z) (tbl : ExpireTable)
  : ExpVec * ExpireTable :=
  match tbl with
  | [] => ([], [])
  | e :: rest =>
      if (0 <? max_batch)%Z && (snd e <=? now)%Z then
        let '(popped, tbl') := pop_due now (max_batch - 1) rest in
        (e :: popped, tbl')
      else ([], tbl)
  end.

(** Capacity shedding: the oldest entry is popped while more than
    [max_size] pairs are tracked. *)
Fixpoint shed (max_size : Z) (tbl : ExpireTable) : ExpVec * ExpireTable :=
  match tbl with
  | [] => ([], [])
  | e :: rest =>
      if (max_size <? size tbl)%Z then
        let '(popped, tbl') := shed max_size rest in
        (e :: popped, tbl')
      else ([], tbl)
  end.

Definition expire_with_limit (now : ExpireTime) (max_batch : Z)
    (tbl : ExpireTable) : ExpVec * ExpireTable :=
  let '(due, tbl1) := pop_due now max_batch tbl in
  let '(extra, tbl2) := shed max_batch tbl1 in
  (due ++ extra, tbl2).

(** The spec does not say what the returned [size_t] measures; the model
    returns the number of entries written. *)
Definition dump {TermWeight} (tbl : ExpireTable)
    (dumper : Snapshot.Dumper TermWeight) : Z * Snapshot.Dumper TermWeight :=
  (size tbl, dumper ++ [Snapshot.Expirations (size tbl) tbl]).

(** The table invariant: ascending expire-time, one entry per key. *)
Definition deadline_le (e1 e2 : Key * Z) : Prop := (snd e1 <= snd e2)%Z.

Definition by_deadline (tbl : ExpireTable) : Prop :=
  StronglySorted deadline_le tbl.

Definition one_entry_per_key (tbl : ExpireTable) : Prop := NoDup (map fst tbl).

Definition well_formed (tbl : ExpireTable) : Prop :=
  by_deadline tbl ∧ one_entry_per_key tbl.

End ExpireTable.

(** ** The base index: changeset and publication *)

(** Modelled from the spec: the protected helpers of [BaseIndex]
    (core/impl/base_index.h and base_index-inl.h are not part of this
    slice).  The changeset is an ordered log of edits, each an
    [UPSERT(term, doc, weight)] or a [DELETE(term, doc)];
    - [create_update_internal] stages one upsert and [remove_internal] one
      delete at the end of the changeset it is given, each counting as one
      logical edit;
    - [apply_internal] publishes the changeset into the posting store as the
      in-order reduction of its edits, clears it and returns the number of
      edits applied;
    - [dump_internal] writes the postings section, term by term. *)
Module BaseIndex.
Import PostingStore.

Inductive Edit (TermWeight : Type) : Type :=
| UPSERT (term : TermId) (doc : DocId) (weight : TermWeight)
| DELETE (term : TermId) (doc : DocId).
Arguments UPSERT {TermWeight} term doc weight.
Arguments DELETE {TermWeight} term doc.

Abbreviation ChangeSet TermWeight := (list (Edit TermWeight)).

Section BaseIndex.
Context {TermWeight : Type}.
Implicit Types (idx : PostingIndex TermWeight) (changeset : ChangeSet TermWeight).

Definition apply_edit idx (e : Edit TermWeight) : PostingIndex TermWeight :=
  match e with
  | UPSERT term doc w => upsert term doc w idx
  | DELETE term doc => remove term doc idx
  end.

Definition publish changeset idx : PostingIndex TermWeight :=
  fold_left apply_edit changeset idx.

Definition create_update_internal (doc_id : DocId) (term_id : TermId)
    (weight : TermWeight) changeset : Z * ChangeSet TermWeight :=
  (1%Z, changeset ++ [UPSERT term_id doc_id weight]).

Definition remove_internal (doc_id : DocId) (term_id : TermId) changeset
  : Z * ChangeSet TermWeight :=
  (1%Z, changeset ++ [DELETE term_id doc_id]).

Definition apply_internal idx changeset
  : Z * (PostingIndex TermWeight * ChangeSet TermWeight) :=
  (to_int (Z.of_nat (length changeset)), (publish changeset idx, [])).

(** The spec does not say what the returned [size_t] measures; the model
    returns the number of postings written. *)
Definition dump_internal idx (dumper : Snapshot.Dumper TermWeight)
  : Z * Snapshot.Dumper TermWeight :=
  let terms := map_to_list idx in
  (to_size_t (Z.of_nat (length (concat (map snd terms)))),
   dumper ++ map (λ tl, Snapshot.TermPostings (fst tl)
                          (Z.of_nat (length (snd tl))) (snd tl)) terms).

End BaseIndex.
End BaseIndex.

(** ** The event index: [core/impl/base_event_index-inl.h] *)

Module EventIndex.
Import PostingStore BaseIndex.

(** Operations performed on a [std::mutex]. *)
Inductive MutexOp := Lock | Unlock.

(** [std::tuple<DocId, TermId, TermWeight, ExpireTime>], read with
    [std::get<0>] to [std::get<3>]. *)
Record EventTuple (TermWeight : Type) : Type := {
  get0 : DocId;
  get1 : TermId;
  get2 : TermWeight;
  get3 : ExpireTime
}.
Arguments Build_EventTuple {TermWeight} _ _ _ _.
Arguments get0 {TermWeight} _.
Arguments get1 {TermWeight} _.
Arguments get2 {TermWeight} _.
Arguments get3 {TermWeight} _.

(** The fields of [BaseEventIndex<DocTraits>]: those inherited from
    [BaseIndex] (the published posting store, the changeset and its mutex)
    and its own ([max_size_], [expire_]).  The mutex is represented by the
    history of the operations performed on it. *)
Record BaseEventIndex (TermWeight : Type) : Type := {
  index_ : PostingIndex TermWeight;
  changeset_ : ChangeSet TermWeight;
  changeset_mutex_ : list MutexOp;
  max_size_ : Z;
  expire_ : ExpireTable.ExpireTable
}.
Arguments Build_BaseEventIndex {TermWeight} _ _ _ _ _.
Arguments index_ {TermWeight} _.
Arguments changeset_ {TermWeight} _.
Arguments changeset_mutex_ {TermWeight} _.
Arguments max_size_ {TermWeight} _.
Arguments expire_ {TermWeight} _.

Section EventIndex.
Context {TermWeight : Type}.

Abbreviation M := (State (BaseEventIndex TermWeight)).

Definition set_index (idx : PostingIndex TermWeight) (s : BaseEventIndex TermWeight) :=
  Build_BaseEventIndex idx (changeset_ s) (changeset_mutex_ s) (max_size_ s) (expire_ s).
Definition set_changeset (cs : ChangeSet TermWeight) (s : BaseEventIndex TermWeight) :=
  Build_BaseEventIndex (index_ s) cs (changeset_mutex_ s) (max_size_ s) (expire_ s).
Definition set_mutex (h : list MutexOp) (s : BaseEventIndex TermWeight) :=
  Build_BaseEventIndex (index_ s) (changeset_ s) h (max_size_ s) (expire_ s).
Definition set_expire (tbl : ExpireTable.ExpireTable) (s : BaseEventIndex TermWeight) :=
  Build_BaseEventIndex (index_ s) (changeset_ s) (changeset_mutex_ s) (max_size_ s) tbl.

(** [std::unique_lock<std::mutex> lock_change(changeset_mutex_);] at the
    head of a body: the mutex is locked, the body runs, and the guard's
    destructor unlocks when the function returns. *)
Definition mutex_op (op : MutexOp) : M unit :=
  modify (λ s, set_mutex (changeset_mutex_ s ++ [op]) s).

Definition unique_lock {A} (body : M A) : M A :=
  mutex_op Lock ;; r ← body; mutex_op Unlock ;; mret r.

(** A helper of the base class called on [changeset_]. *)
Definition on_changeset {A}
    (f : ChangeSet TermWeight → A * ChangeSet TermWeight) : M A :=
  λ s, let '(r, cs) := f (changeset_ s) in (r, set_changeset cs s).

(** Modelled from the spec: the event index a manager starts from when no
    snapshot is restored (the constructor without a loader is declared in
    core/impl/base_event_index.h, outside this slice): nothing published,
    nothing staged, nothing tracked, and [max_size_] as given.  The
    [initial_buckets] argument only presizes the hash table. *)
Definition empty_event_index (max_size : Z) : BaseEventIndex TermWeight :=
  Build_BaseEventIndex empty_index [] [] max_size ExpireTable.empty.

Definition update_expire_internal (doc_id : DocId) (term_id : TermId)
    (expire_time : ExpireTime) : M unit :=
  modify (λ s, set_expire
    (ExpireTable.update {| term_id := term_id; doc_id := doc_id |}
       expire_time (expire_ s)) s).

Definition get_expire_table_size : M Z :=
  unique_lock (gets (λ s, ExpireTable.size (expire_ s))).

Definition update (doc_id : DocId) (term_id : TermId) (weights : TermWeight)
    (expire_time : ExpireTime) : M Z :=
  unique_lock (
    update_expire_internal doc_id term_id expire_time ;;
    on_changeset (create_update_internal doc_id term_id weights)).

Fixpoint batch_update_loop (batch : list (EventTuple TermWeight)) (ret : Z) : M Z :=
  match batch with
  | [] => mret ret
  | tuple :: rest =>
      update_expire_internal (get0 tuple) (get1 tuple) (get3 tuple) ;;
      r ← on_changeset (create_update_internal (get0 tuple) (get1 tuple) (get2 tuple));
      batch_update_loop rest (int_add ret r)
  end.

Definition batch_update (batch : list (EventTuple TermWeight)) : M Z :=
  unique_lock (batch_update_loop batch 0%Z).

Fixpoint remove_expired (results : ExpireTable.ExpVec) : M unit :=
  match results with
  | [] => mret tt
  | expire_item :: rest =>
      on_changeset (remove_internal (doc_id (fst expire_item))
                                    (term_id (fst expire_item))) ;;
      remove_expired rest
  end.

Definition expire_with_limit (expire_time : ExpireTime) (limit : Z)
  : M ExpireTable.ExpVec :=
  λ s, let '(results, tbl) :=
         ExpireTable.expire_with_limit expire_time limit (expire_ s) in
       (results, set_expire tbl s).

Definition apply_changeset : M Z :=
  λ s, let '(r, (idx, cs)) := apply_internal (index_ s) (changeset_ s) in
       (r, set_changeset cs (set_index idx s)).

Definition apply (expire_time : ExpireTime) : M (Z * Z) :=
  unique_lock (
    limit ← gets max_size_;
    results ← expire_with_limit expire_time limit;
    let ret_expire := int_add 0 (ExpireTable.size results) in
    remove_expired results ;;
    r ← apply_changeset;
    let ret := int_add 0 r in
    mret (ret, ret_expire)).

Definition dump (dumper : Snapshot.Dumper TermWeight)
  : M (Z * Snapshot.Dumper TermWeight) :=
  '(n1, dumper1) ← gets (λ s, dump_internal (index_ s) dumper);
  let ret := size_add 0 n1 in
  '(n2, dumper2) ← gets (λ s, ExpireTable.dump (expire_ s) dumper1);
  let ret := size_add ret n2 in
  mret (ret, dumper2).

(** A caller that calls [update] once per tuple, in batch order, and keeps
    the values returned. *)
Fixpoint update_each (batch : list (EventTuple TermWeight)) : M (list Z) :=
  match batch with
  | [] => mret []
  | tuple :: rest =>
      r ← update (get0 tuple) (get1 tuple) (get2 tuple) (get3 tuple);
      rs ← update_each rest;
      mret (r :: rs)
  end.

(** The two write entry points, and a sequence of such calls. *)
Inductive WriteCall : Type :=
| CallUpdate (doc_id : DocId) (term_id : TermId) (weights : TermWeight)
    (expire_time : ExpireTime)
| CallBatchUpdate (batch : list (EventTuple TermWeight)).

Definition write_call (c : WriteCall) : M Z :=
  match c with
  | CallUpdate doc_id term_id weights expire_time =>
      update doc_id term_id weights expire_time
  | CallBatchUpdate batch => batch_update batch
  end.

Fixpoint write_calls (calls : list WriteCall) : M (list Z) :=
  match calls with
  | [] => mret []
  | c :: rest => r ← write_call c; rs ← write_calls rest; mret (r :: rs)
  end.

(** The DELETE that [apply] stages for a popped pair. *)
Definition delete_of (expire_item : Key * Z) : Edit TermWeight :=
  DELETE (term_id (fst expire_item)) (doc_id (fst expire_item)).

(** The states an event index goes through: it starts empty and is changed
    by its public member functions only. *)
Inductive reachable : BaseEventIndex TermWeight → Prop :=
| reachable_empty max_size : reachable (empty_event_index max_size)
| reachable_size s : reachable s → reachable (snd (get_expire_table_size s))
| reachable_update s doc_id term_id weights expire_time :
    reachable s → reachable (snd (update doc_id term_id weights expire_time s))
| reachable_batch_update s batch :
    reachable s → reachable (snd (batch_update batch s))
| reachable_apply s expire_time :
    reachable s → reachable (snd (apply expire_time s))
| reachable_dump s dumper : reachable s → reachable (snd (dump dumper s)).

(** Two objects that agree on everything but the history of the mutex. *)
Definition same_data (s1 s2 : BaseEventIndex TermWeight) : Prop :=
  index_ s1 = index_ s2 ∧ changeset_ s1 = changeset_ s2 ∧
  max_size_ s1 = max_size_ s2 ∧ expire_ s1 = expire_ s2.

(** The keys that [apply(expire_time)] pops in state [s]. *)
Definition popped_by_apply (expire_time : ExpireTime)
    (s : BaseEventIndex TermWeight) : ExpireTable.ExpVec :=
  fst (ExpireTable.expire_with_limit expire_time (max_size_ s) (expire_ s)).

End EventIndex.
Arguments WriteCall : clear implicits.
End EventIndex.

(** ** The feature cache: [model/feature_cache.cc] *)

Module FeatureCache.

Abbreviation FeatureId := N (only parsing).

Inductive FeatureType := kInteger | kString.

(** A feature space as the tests create it: [create_space(name, id, type)].
    A [std::shared_ptr<FeatureSpace>] handle is dereferenced by the source
    without a null test; the model passes the space itself. *)
Record FeatureSpace := {
  space_name : string;
  space_id : N;
  space_type : FeatureType
}.

(** [Feature(feature_key, id)]. *)
Record Feature := { feature_key : string; feature_id : FeatureId }.

(** [std::shared_ptr<Feature>]: null, or the address of an object on the
    heap.  Two pointers are the same object when their addresses agree. *)
Inductive shared_ptr := nullptr | object_at (address : nat).

Record FeatureCache := {
  spaces_ : gmap string FeatureSpace;
  features_ : gmap N shared_ptr
}.

(** The cache together with the heap that holds the [Feature] objects. *)
Record Memory := { heap : list Feature; cache : FeatureCache }.

Definition deref (m : Memory) (p : shared_ptr) : option Feature :=
  match p with
  | nullptr => None
  | object_at a => heap m !! a
  end.

(** [std::make_shared<Feature>(...)]: a fresh object at a fresh address. *)
Definition make_shared (f : Feature) : State Memory shared_ptr :=
  λ m, (object_at (length (heap m)),
        {| heap := heap m ++ [f]; cache := cache m |}).

(** [features_[id] = feature]. *)
Definition features_assign (id : FeatureId) (feature : shared_ptr)
  : State Memory unit :=
  modify (λ m,
    {| heap := heap m;
       cache := {| spaces_ := spaces_ (cache m);
                   features_ := <[id := feature]> (features_ (cache m)) |} |}).

Section FeatureCache.

(** [FeatureSpace::calculate_feature_id] and [FeatureSpace::kInvalidId] are
    declared in model/feature_space.h, outside this slice: both are
    parameters of the model. *)
Variable calculate_feature_id : FeatureSpace → string → N.
Variable kInvalidId : N.

(** The overload taking a [std::shared_ptr<FeatureSpace>]. *)
Definition create_or_get_feature_in_space (feature_key : string)
    (space : FeatureSpace) : State Memory shared_ptr :=
  let id := calculate_feature_id space feature_key in
  if (id =? kInvalidId)%N then mret nullptr
  else
    iter ← gets (λ m, features_ (cache m) !! id);
    match iter with
    | Some found => mret found
    | None =>
        feature ← make_shared {| feature_key := feature_key; feature_id := id |};
        features_assign id feature ;;
        mret feature
    end.

(** The overload taking the name of the space. *)
Definition create_or_get_feature (feature_key : string) (space_name : string)
  : State Memory shared_ptr :=
  iter ← gets (λ m, spaces_ (cache m) !! space_name);
  match iter with
  | None => mret nullptr
  | Some space => create_or_get_feature_in_space feature_key space
  end.

(** The two ways a caller names the space. *)
Inductive SpaceRef := ByName (space_name : string) | ByHandle (space : FeatureSpace).

Definition resolve (m : Memory) (r : SpaceRef) : option FeatureSpace :=
  match r with
  | ByName n => spaces_ (cache m) !! n
  | ByHandle sp => Some sp
  end.

Definition call (feature_key : string) (r : SpaceRef) : State Memory shared_ptr :=
  match r with
  | ByName n => create_or_get_feature feature_key n
  | ByHandle sp => create_or_get_feature_in_space feature_key sp
  end.

End FeatureCache.

(** Every cached pointer is non-null and refers to a live object: the
    only writer of [features_] stores the result of [make_shared]. *)
Definition cache_wf (m : Memory) : Prop :=
  ∀ id p, features_ (cache m) !! id = Some p → is_Some (deref m p).

Definition new_cache : Memory :=
  {| heap := []; cache := {| spaces_ := ∅; features_ := ∅ |} |}.

End FeatureCache.

(** ** Index start-up: [server_main] in [main.cc] *)

Module ServerMain.
Import EventIndex.

(** What a constructor can throw: the [std::ios_base::failure] caught by
    [server_main], or anything else. *)
Inductive exception :=
| ios_base_failure (what : string)
| other_exception (what : string).

Inductive LogLevel := INFO | ERROR.

(** A log call: level, format string, and the [%s] argument if any. *)
Record LogLine := { level : LogLevel; format : string; argument : option string }.

(** Modelled from the spec: class [DocumentIndexManager]
    (index/document_index_manager.h is not part of this slice): the owner of
    the event index. *)
Record DocumentIndexManager (TermWeight : Type) : Type :=
  { event_index : BaseEventIndex TermWeight }.
Arguments Build_DocumentIndexManager {TermWeight} _.
Arguments event_index {TermWeight} _.

Section ServerMain.
Context {TermWeight : Type}.

(** [DocumentIndexManager(initial_buckets, max_size, snapshot_prefix)]: the
    restoring constructor.  Its body is outside this slice; it either
    completes with a manager or throws. *)
Variable restore : Z → Z → string → exception + DocumentIndexManager TermWeight.

(** Modelled from the spec: [DocumentIndexManager(initial_buckets, max_size)]
    creates an empty index; [initial_buckets] is a presizing hint only. *)
Definition new_DocumentIndexManager (initial_buckets max_size : Z)
  : DocumentIndexManager TermWeight :=
  {| event_index := empty_event_index (to_size_t max_size) |}.

(** The [if (restore_on_startup) { try ... catch (std::ios_base::failure&) }]
    statement: the value of the [index] pointer afterwards ([None] for a
    null pointer) or the exception that escapes, and in both cases the
    lines logged: "loading index" is logged before the [try] block is
    entered. *)
Definition try_restore (restore_on_startup : bool)
    (index_initial_buckets index_max_size : Z) (snapshot_prefix : string)
  : (exception * list LogLine)
    + (option (DocumentIndexManager TermWeight) * list LogLine) :=
  if restore_on_startup then
    let loading :=
      {| level := INFO; format := "loading index from snapshot %s";
         argument := Some snapshot_prefix |} in
    match restore index_initial_buckets index_max_size snapshot_prefix with
    | inr manager => inr (Some manager, [loading])
    | inl (ios_base_failure what) =>
        inr (None, [loading;
                    {| level := ERROR; format := "failed restore index. reason:%s";
                       argument := Some what |}])
    | inl e => inl (e, [loading])
    end
  else inr (None, []).

(** Lines 179 to 195 of [main.cc]: the index [server_main] goes on with,
    or the exception that leaves these lines, and the lines logged. *)
Definition create_index (restore_on_startup : bool)
    (index_initial_buckets index_max_size : Z) (snapshot_prefix : string)
  : (exception * list LogLine)
    + (DocumentIndexManager TermWeight * list LogLine) :=
  match try_restore restore_on_startup index_initial_buckets index_max_size
          snapshot_prefix with
  | inl thrown => inl thrown
  | inr (Some index, log) => inr (index, log)
  | inr (None, log) =>
      inr (new_DocumentIndexManager index_initial_buckets index_max_size,
           log ++ [{| level := INFO; format := "creating an empty index ...";
                      argument := None |}])
  end.

End ServerMain.
End ServerMain.

(** ** Concrete runs

    The template instantiated at floating-point weights, and the states of
    the design document's scenarios. *)
Module Scenarios.
Import PostingStore BaseIndex EventIndex.

Abbreviation Index := (BaseEventIndex float).

(** S1: one posting for term 10, document 100, published by an [apply]
    before its deadline, then upserted again with a new weight and a new
    deadline. *)
Definition s1_start : Index := empty_event_index 1024.
Definition s1_published : Index :=
  (apply 50 (update 100 10 0.5%float 60 s1_start).2).2.
Definition s1_reinserted : Index :=
  (update 100 10 0.75%float 70 s1_published).2.

(** S2: four postings under [max_size = 3]. *)
Definition s2_batch : list (EventTuple float) :=
  [ Build_EventTuple 1 1 1%float 100; Build_EventTuple 2 1 1%float 200;
    Build_EventTuple 3 1 1%float 300; Build_EventTuple 4 1 1%float 400 ].
Definition s2_loaded : Index := (batch_update s2_batch (empty_event_index 3)).2.

End Scenarios.

(** The cache of the unit tests (feature_cache_test.cc): spaces "A", "BB"
    and "CCC" and no feature yet.  [FeatureSpace::calculate_feature_id] is
    not part of this slice; the concrete runs use a stand-in that agrees with
    what the tests observe: an integer space accepts decimal keys only, and
    the space id sits above the low 56 bits. *)
Module FeatureCacheScenario.
Import FeatureCache.

Definition space_a : FeatureSpace :=
  {| space_name := "A"; space_id := 1; space_type := kInteger |}.
Definition space_b : FeatureSpace :=
  {| space_name := "BB"; space_id := 2; space_type := kString |}.
Definition space_c : FeatureSpace :=
  {| space_name := "CCC"; space_id := 3; space_type := kInteger |}.

Definition test_cache : Memory :=
  {| heap := [];
     cache := {| spaces_ := <["A" := space_a]> (<["BB" := space_b]>
                              (<["CCC" := space_c]> ∅));
                 features_ := ∅ |} |}.

Definition sample_kInvalidId : N := 2 ^ 64 - 1.

Fixpoint parse_decimal (key : string) (acc : N) : option N :=
  match key with
  | EmptyString => Some acc
  | String c rest =>
      let n := Ascii.N_of_ascii c in
      if (48 <=? n)%N && (n <=? 57)%N
      then parse_decimal rest (10 * acc + (n - 48))%N
      else None
  end.

Definition sample_calculate_feature_id (space : FeatureSpace) (key : string) : N :=
  match space_type space with
  | kInteger =>
      match key with
      | EmptyString => sample_kInvalidId
      | _ => match parse_decimal key 0 with
             | Some n => (space_id space * 2 ^ 56 + n)%N
             | None => sample_kInvalidId
             end
      end
  | kString => (space_id space * 2 ^ 56 + N.of_nat (String.length key))%N
  end.

End FeatureCacheScenario.

(** ** The process: [main.cc] *)

(** The whole of [main.cc]: [read_config_file], [init_log_config],
    [server_main] and [main].  The components that [server_main] wires
    together (feature spaces, index manager, update pipeline, ranking
    models, HTTP server, logger, JSON reader, C library) are outside this
    slice: what their calls answer is given by a [World], and each call
    that acts on them is recorded as an [Event], in program order. *)
Module Main.
Import Stdlib.Strings.Ascii.
Import ServerMain.

(** The signals [server_main] installs handlers for, with their numbers in
    [<signal.h>] on Linux. *)
Inductive Signal := SIGPIPE | SIGHUP | SIGTERM | SIGINT.

Definition signal_number (s : Signal) : Z :=
  match s with SIGHUP => 1 | SIGINT => 2 | SIGPIPE => 13 | SIGTERM => 15 end.

Inductive Handler := ignore_signal | exit_on_signal.

Inductive Level := LOG_DEBUG | LOG_INFO | LOG_ERROR.

(** The argument of a [printf]-style format. *)
Inductive Arg := ArgD (n : Z) | ArgU (n : Z) | ArgZu (n : Z) | ArgS (s : string).

Inductive Event :=
| EvSetvbuf (stream : string)
| EvSetNewHandler
| EvStderr (format : string) (args : list Arg)
| EvFopen (file_name : string)
| EvFclose (file_name : string)
| EvInitLogger (file_name : option string)
| EvSignal (sig : Signal) (handler : Handler)
| EvLog (level : Level) (format : string) (arg : option Arg)
| EvRestoreLog (line : LogLine)
| EvFeatureSpacesInitialize
| EvStartMaintain (apply_interval compaction_interval : Z)
| EvDump (snapshot_prefix : string)
| EvStopMaintain
| EvPipelineCreate (thread_num queue_size : Z)
| EvPipelineStart
| EvPipelineStop
| EvIndexViewCreate
| EvRegisterModelFactory (name : string)
| EvCreateModel
| EvServerCreate (port thread_num max_req_per_thread : Z)
| EvServerBind (path : string) (default_ttl : option Z) (snapshot_prefix : option string)
| EvServerInitialize
| EvServerStart
| EvServerStop
| EvSigprocmaskBlock.

(** How a piece of code ends: it falls through with a value, executes
    [return], throws, or never comes back (the wait for a signal that is
    not delivered). *)
Inductive Outcome (A : Type) : Type :=
| Normal (a : A)
| Returned (code : Z)
| Thrown (e : exception)
| Blocked.
Arguments Normal {A} a.
Arguments Returned {A} code.
Arguments Thrown {A} e.
Arguments Blocked {A}.

(** A run: how it ends, and the events it performed. *)
Definition Run (A : Type) : Type := Outcome A * list Event.

#[global] Instance run_ret : MRet Run := λ A a, (Normal a, []).
#[global] Instance run_bind : MBind Run :=
  λ A B f m,
    match m with
    | (Normal a, t) => let '(o, t') := f a in (o, t ++ t')
    | (Returned code, t) => (Returned code, t)
    | (Thrown e, t) => (Thrown e, t)
    | (Blocked, t) => (Blocked, t)
    end.

Definition emit (e : Event) : Run unit := (Normal tt, [e]).
Definition return_ {A} (code : Z) : Run A := (Returned code, []).
Definition throw {A} (e : exception) : Run A := (Thrown e, []).
Definition log (level : Level) (format : string) (arg : option Arg) : Run unit :=
  emit (EvLog level format arg).

(** A function call: a [return] inside the body ends the body, not the
    caller. *)
Definition call (body : Run Z) : Run Z :=
  match body with
  | (Returned code, t) => (Normal code, t)
  | r => r
  end.

(** Modelled from the spec: [ScopeGuard guard([...] { on_exit });]
    followed by the rest of the enclosing block (class [ScopeGuard] of
    utils/scope_guard.h is outside this slice; the spec asks for release
    "on all exit paths, including error exits").  The lambda runs when the
    block is left, by falling through, by [return] or by an exception; a
    block that is never left never runs it. *)
Definition scope_guard {A} (on_exit : Run unit) (rest : Run A) : Run A :=
  match rest with
  | (Blocked, t) => (Blocked, t)
  | (o, t) => (o, t ++ snd on_exit)
  end.

(** [try { body } catch (...) { handler }]. *)
Definition catch_all {A} (body : Run A) (handler : Run A) : Run A :=
  match body with
  | (Thrown _, t) => let '(o, t') := handler in (o, t ++ t')
  | r => r
  end.

(** Modelled from the spec: the configuration document, as the
    [json_get_*] and [json_try_get_value] helpers read it (utils/json_utils.h
    is outside this slice): a key that is absent, or holds a value of
    another type, reads as [None], and [json_try_get_value] then leaves its
    output argument alone.  The contents of "feature_spaces" and "ranking"
    are passed on unread. *)
Record IndexConfig := {
  ix_initial_buckets : option Z;
  ix_max_size : option Z;
  ix_maintain_interval : option Z;
  ix_restore_on_startup : option bool;
  ix_dump_on_exit : option bool;
  ix_snapshot_prefix : option string;
  ix_update_thread_num : option Z;
  ix_update_queue_size : option Z;
  ix_default_ttl : option Z
}.

Record ServerConfig := {
  sv_port : option Z;
  sv_thread_num : option Z;
  sv_max_request_per_thread : option Z
}.

Record Config (Json : Type) : Type := {
  cfg_logger_config : option string;
  cfg_feature_spaces : option Json;
  cfg_index : option IndexConfig;
  cfg_ranking : option Json;
  cfg_server : option ServerConfig
}.
Arguments Build_Config {Json} _ _ _ _ _.
Arguments cfg_logger_config {Json} _.
Arguments cfg_feature_spaces {Json} _.
Arguments cfg_index {Json} _.
Arguments cfg_ranking {Json} _.
Arguments cfg_server {Json} _.

(** A [rapidjson::Document]: default-constructed, parsed, or carrying the
    parse error and its offset. *)
Inductive Document (Json : Type) : Type :=
| NullDocument
| Parsed (config : Config Json)
| ParseError (code offset : Z).
Arguments NullDocument {Json}.
Arguments Parsed {Json} config.
Arguments ParseError {Json} code offset.

Definition members {Json} (d : Document Json) : Config Json :=
  match d with
  | Parsed config => config
  | _ => Build_Config None None None None None
  end.

(** What the world outside [main.cc] answers.  Two calls are written in
    [main.cc] as calls that may throw, each inside a [try] block: the
    restoring constructor and [index->dump]; they may throw here.  Every
    other call is taken to come back: whether it can throw is decided
    outside this slice, and nothing below speaks for a run in which it
    does. *)
Record World (Json TermWeight : Type) : Type := {
  (** [std::fopen(file_name, "r")]: the contents of the file, if it opens *)
  fopen : string → option string;
  (** [config.ParseStream<kConfigParseFlags>(is)] on those contents *)
  parse_stream : string → Document Json;
  (** [dirname] of the C library *)
  dirname : string → string;
  (** [init_logger(file_name)], [None] for [NULL] *)
  init_logger : option string → Z;
  (** [FeatureSpaceManager::initialize] *)
  feature_spaces_initialize : Json → Z;
  (** [DocumentIndexManager(initial_buckets, max_size, snapshot_prefix)] *)
  restore : Z → Z → string → exception + DocumentIndexManager TermWeight;
  (** [index->dump(snapshot_prefix)]: [Some what] when it throws
      [std::ios_base::failure] *)
  dump_failure : string → option string;
  (** [ModelManagerFactory::create_model]: whether the model is non-null *)
  create_model : Json → bool;
  (** [Server::initialize] and [Server::start] *)
  server_initialize : Z;
  server_start : Z;
  (** the signals delivered while [server_main] waits, in order *)
  signals : list Signal
}.
Arguments fopen {Json TermWeight} _ _.
Arguments parse_stream {Json TermWeight} _ _.
Arguments dirname {Json TermWeight} _ _.
Arguments init_logger {Json TermWeight} _ _.
Arguments feature_spaces_initialize {Json TermWeight} _ _.
Arguments restore {Json TermWeight} _ _ _ _.
Arguments dump_failure {Json TermWeight} _ _.
Arguments create_model {Json TermWeight} _ _.
Arguments server_initialize {Json TermWeight} _.
Arguments server_start {Json TermWeight} _.
Arguments signals {Json TermWeight} _.

Section Main.
Context {Json TermWeight : Type}.
Variable world : World Json TermWeight.

(** [exit_on_signal] stores the signal in [g_exit_signal]; [ignore_signal]
    does nothing. *)
Definition handler_of (s : Signal) : Handler :=
  match s with
  | SIGPIPE | SIGHUP => ignore_signal
  | SIGTERM | SIGINT => exit_on_signal
  end.

(** [g_exit_signal = 0; while (!g_exit_signal) sigsuspend(&orig_mask);] on
    the signals delivered: the value of [g_exit_signal] when the loop is
    left, or [None] when it is never left. *)
Fixpoint wait_for_exit_signal (delivered : list Signal) : option Z :=
  match delivered with
  | [] => None
  | s :: rest =>
      let g_exit_signal :=
        match handler_of s with
        | exit_on_signal => signal_number s
        | ignore_signal => 0%Z
        end in
      if (g_exit_signal =? 0)%Z then wait_for_exit_signal rest
      else Some g_exit_signal
  end.

(** [if (json_try_get_value(obj, key, v)) LOG_DEBUG(set, v) else
    LOG_DEBUG(unset, v)]: the value of [v] afterwards. *)
Definition configured {A} (show : A → Arg) (found : option A) (initial : A)
    (set unset : string) : Run A :=
  let v := default initial found in
  log LOG_DEBUG (match found with Some _ => set | None => unset end)
    (Some (show v)) ;;
  mret v.

Definition show_bool (b : bool) : Arg := ArgS (if b then "true" else "false").

(** [read_config_file]: the value returned and the document filled in. *)
Definition read_config_file (file_name : string) : Run (Z * Document Json) :=
  emit (EvFopen file_name) ;;
  match fopen world file_name with
  | None =>
      emit (EvStderr "Cannot open config file %s.\n" [ArgS file_name]) ;;
      mret ((-1)%Z, NullDocument)
  | Some contents =>
      match parse_stream world contents with
      | ParseError code offset =>
          emit (EvStderr "Config file parse error %d at offset %zu.\n"
                  [ArgD code; ArgZu offset]) ;;
          mret ((-1)%Z, ParseError code offset)
      | config =>
          emit (EvFclose file_name) ;;
          mret (0%Z, config)
      end
  end.

Fixpoint back (s : string) : option Ascii.ascii :=
  match s with
  | EmptyString => None
  | String c EmptyString => Some c
  | String _ rest => back rest
  end.

(** [init_log_config]: the logger file named in the configuration is taken
    relative to the directory of the configuration file. *)
Definition init_log_config (file_name : string) (config : Document Json) : Run Z :=
  match cfg_logger_config (members config) with
  | None =>
      emit (EvStderr "Logger configuration not found! Using default configurations." []) ;;
      emit (EvInitLogger None) ;;
      mret (init_logger world None)
  | Some logger_file_name_str =>
      let dir := dirname world file_name in
      let dir :=
        if negb (String.eqb dir "") && negb (bool_decide (back dir = Some "/"%char))
        then String.append dir "/" else dir in
      let logger_file_name := String.append dir logger_file_name_str in
      emit (EvInitLogger (Some logger_file_name)) ;;
      mret (init_logger world (Some logger_file_name))
  end.

(** The body of the [feed_index_guard] lambda. *)
Definition feed_index_guard (dump_on_exit : bool) (snapshot_prefix : string)
  : Run unit :=
  (if dump_on_exit then
     log LOG_INFO "dumping index to snapshot %s" (Some (ArgS snapshot_prefix)) ;;
     emit (EvDump snapshot_prefix) ;;
     match dump_failure world snapshot_prefix with
     | Some what => log LOG_ERROR "failed dump index. reason:%s" (Some (ArgS what))
     | None => mret tt
     end
   else mret tt) ;;
  log LOG_INFO "index maintain thread stopping..." None ;;
  emit EvStopMaintain.

(** Lines 179 to 195, with the lines logged there, also when an exception
    leaves them. *)
Definition create_index_run (restore_on_startup : bool)
    (index_initial_buckets index_max_size : Z) (snapshot_prefix : string)
  : Run (DocumentIndexManager TermWeight) :=
  match create_index (restore world) restore_on_startup index_initial_buckets
          index_max_size snapshot_prefix with
  | inl (e, lines) => (Thrown e, map EvRestoreLog lines)
  | inr (index, lines) => (Normal index, map EvRestoreLog lines)
  end.

(** [server_main] is cut into four stages, each the rest of the function
    from its first line on.

    Lines 307 to 333: the server guard, the wait for an exit signal, and
    [return 0]. *)
Definition serve : Run Z :=
  scope_guard (log LOG_INFO "server exiting..." None ;; emit EvServerStop) (
    log LOG_INFO "service started successfully." None ;;
    emit EvSigprocmaskBlock ;;
    match wait_for_exit_signal (signals world) with
    | None => (Blocked, [])
    | Some g_exit_signal =>
        log LOG_INFO "received signal %d. exiting." (Some (ArgD g_exit_signal)) ;;
        return_ 0
    end).

(** Lines 239 to 305: index view, ranking model, server set-up and start. *)
Definition run_server (config : Document Json) (default_ttl : Z)
    (snapshot_prefix : string) : Run Z :=
  emit EvIndexViewCreate ;;
  emit (EvRegisterModelFactory "DirectModelFactory") ;;
  emit (EvRegisterModelFactory "FeatureMappingModelFactory") ;;
  match cfg_ranking (members config) with
  | None =>
      log LOG_ERROR "ranking model config does not exist!" None ;;
      return_ (-1)
  | Some config_ranking =>
  emit EvCreateModel ;;
  if negb (create_model world config_ranking) then
    log LOG_ERROR "ranking model initialization failed!" None ;;
    return_ (-1)
  else
  log LOG_INFO "server initializing ..." None ;;
  let config_server := cfg_server (members config) in
  server_port ←
    configured ArgD (config_server ≫= sv_port) 19980%Z
      "server port: %d" "server port not configured, use default: %d";
  server_thread_num ←
    configured ArgU (config_server ≫= sv_thread_num) 4%Z
      "server thread num: %u"
      "server thread num not configured, use default: %u";
  max_req_per_thread ←
    configured ArgU (config_server ≫= sv_max_request_per_thread) 0%Z
      "max requests per server thread: %u"
      "max requests per server thread not configured, use default: %u";
  emit (EvServerCreate server_port server_thread_num max_req_per_thread) ;;
  emit (EvServerBind "/test" None None) ;;
  emit (EvServerBind "/document" (Some default_ttl) None) ;;
  emit (EvServerBind "/query" None None) ;;
  emit (EvServerBind "/snapshot" None (Some snapshot_prefix)) ;;
  emit EvServerInitialize ;;
  if (server_initialize world <? 0)%Z then
    log LOG_ERROR "server initialization failed!" None ;;
    return_ (-1)
  else
  emit EvServerStart ;;
  if (server_start world <? 0)%Z then
    log LOG_ERROR "failed to start server!" None ;;
    return_ (-1)
  else serve
  end.

(** Lines 212 to 237, then the rest under the pipeline guard. *)
Definition run_pipeline (config : Document Json) (config_index : IndexConfig)
    (snapshot_prefix : string) : Run Z :=
  document_update_thread_num ←
    configured ArgU (ix_update_thread_num config_index) 4%Z
      "feed document pipeline thread num: %u"
      "feed document pipeline thread num not configured, use default: %u";
  document_update_queue_size ←
    configured ArgU (ix_update_queue_size config_index) 2048%Z
      "feed document pipeline queue size: %u"
      "feed document pipeline queue size not configured, use default: %u";
  default_ttl ←
    configured ArgU (ix_default_ttl config_index) 86400%Z
      "document update default ttl: %u"
      "document update default ttl not configured, use default: %u";
  emit (EvPipelineCreate document_update_thread_num document_update_queue_size) ;;
  emit EvPipelineStart ;;
  scope_guard (log LOG_INFO "feed document pipeline stopping..." None ;;
               emit EvPipelineStop)
    (run_server config default_ttl snapshot_prefix).

(** Lines 139 to 210, then the rest under the index guard. *)
Definition run_index (config : Document Json) (config_index : IndexConfig)
  : Run Z :=
  index_initial_buckets ←
    configured ArgD (ix_initial_buckets config_index) 100000%Z
      "index initial buckets: %d"
      "index initial buckets not configured, use default: %d";
  index_max_size ←
    configured ArgD (ix_max_size config_index) 5000000%Z
      "index max size: %d"
      "index max size not configured, use default: %d";
  index_maintain_interval ←
    configured ArgD (ix_maintain_interval config_index) 300%Z
      "index maintain interval: %d"
      "index maintain interval not configured, use default: %d";
  restore_on_startup ←
    configured show_bool (ix_restore_on_startup config_index) false
      "index restore on startup: %s"
      "index restore on startup not configured, use default: %s";
  dump_on_exit ←
    configured show_bool (ix_dump_on_exit config_index) false
      "index dump on exit: %s"
      "index dump on exit not configured, use default: %s";
  snapshot_prefix ←
    configured ArgS (ix_snapshot_prefix config_index) ""
      "index snapshot prefix: %s"
      "index snapshot prefix not configured, use default: %s";
  index ← create_index_run restore_on_startup index_initial_buckets
             index_max_size snapshot_prefix;
  emit (EvStartMaintain index_maintain_interval index_maintain_interval) ;;
  scope_guard (feed_index_guard dump_on_exit snapshot_prefix)
    (run_pipeline config config_index snapshot_prefix).

(** Lines 104 to 137, then the rest. *)
Definition server_main (config : Document Json) : Run Z :=
  call (
    emit (EvSignal SIGPIPE ignore_signal) ;;
    emit (EvSignal SIGHUP ignore_signal) ;;
    emit (EvSignal SIGTERM exit_on_signal) ;;
    emit (EvSignal SIGINT exit_on_signal) ;;
    match cfg_feature_spaces (members config) with
    | None =>
        log LOG_ERROR "features configuration does not exist!" None ;;
        return_ (-1)
    | Some config_feature_spaces =>
    emit EvFeatureSpacesInitialize ;;
    if (feature_spaces_initialize world config_feature_spaces <? 0)%Z then
      log LOG_ERROR "feature cache parsing failed!" None ;;
      return_ (-1)
    else
    match cfg_index (members config) with
    | None =>
        log LOG_ERROR "index configuration does not exist!" None ;;
        return_ (-1)
    | Some config_index => run_index config config_index
    end
    end).

(** [redgiant::main(argc, argv)], with [argc = length argv]. *)
Definition main (argv : list string) : Run Z :=
  call (
    emit (EvSetvbuf "stdout") ;;
    emit (EvSetvbuf "stderr") ;;
    emit EvSetNewHandler ;;
    if negb (length argv =? 2)%nat then
      emit (EvStderr "Usage: %s config_file\n" [ArgS (default "" (argv !! 0%nat))]) ;;
      return_ (-1)
    else
    let file_name := default "" (argv !! 1%nat) in
    '(r, config) ← read_config_file file_name;
    if (r <? 0)%Z then
      emit (EvStderr "Failed to open config file %s.\n" [ArgS file_name]) ;;
      return_ (-1)
    else
    r ← init_log_config file_name config;
    if (r <? 0)%Z then
      emit (EvStderr "Failed to initialize log config.\n" []) ;;
      return_ (-1)
    else
    ret ← catch_all (server_main config)
            (log LOG_ERROR "unkown error happened" None ;; mret (-1)%Z);
    (if (0 <=? ret)%Z then log LOG_INFO "exit successfully." None
     else log LOG_INFO "exit with failure." None) ;;
    return_ ret).

End Main.

(** *** Reading a trace *)

(** The events that start or stop a background component, and the dump. *)
Definition is_lifecycle (e : Event) : bool :=
  match e with
  | EvStartMaintain _ _ | EvPipelineStart | EvServerStart
  | EvServerStop | EvPipelineStop | EvDump _ | EvStopMaintain => true
  | _ => false
  end.

Definition lifecycle (t : list Event) : list Event := List.filter is_lifecycle t.

Definition is_start (e : Event) : bool :=
  match e with
  | EvStartMaintain _ _ | EvPipelineStart | EvServerStart => true
  | _ => false
  end.

Definition is_shutdown (e : Event) : bool :=
  match e with
  | EvServerStop | EvPipelineStop | EvDump _ | EvStopMaintain => true
  | _ => false
  end.

Definition shutdown_sequence (t : list Event) : list Event :=
  List.filter is_shutdown t.

Definition started (t : list Event) : list Event := List.filter is_start t.

Definition is_blocked {A} (o : Outcome A) : bool :=
  match o with Blocked => true | _ => false end.


(** The same world, with another answer of [index->dump]. *)
Definition with_dump_failure {Json TermWeight} (f : string → option string)
    (w : World Json TermWeight) : World Json TermWeight :=
  {| fopen := fopen w; parse_stream := parse_stream w; dirname := dirname w;
     init_logger := init_logger w;
     feature_spaces_initialize := feature_spaces_initialize w;
     restore := restore w; dump_failure := f; create_model := create_model w;
     server_initialize := server_initialize w; server_start := server_start w;
     signals := signals w |}.

(** *** The course of a run, as a table

    The decisions [server_main] takes, in the order in which it takes them;
    [MainFacts.server_main_summary] shows that the outcome and the
    component events of [server_main] follow this table. *)

(** The "index" object, once feature spaces are configured and
    initialised. *)
Definition index_config {Json TermWeight} (w : World Json TermWeight)
    (config : Document Json) : option IndexConfig :=
  match cfg_feature_spaces (members config) with
  | Some config_feature_spaces =>
      if (feature_spaces_initialize w config_feature_spaces <? 0)%Z then None
      else cfg_index (members config)
  | None => None
  end.

(** The index [server_main] obtains for that object. *)
Definition index_created {Json TermWeight} (w : World Json TermWeight)
    (config_index : IndexConfig)
  : (exception * list LogLine)
    + (DocumentIndexManager TermWeight * list LogLine) :=
  create_index (restore w)
    (default false (ix_restore_on_startup config_index))
    (default 100000%Z (ix_initial_buckets config_index))
    (default 5000000%Z (ix_max_size config_index))
    (default "" (ix_snapshot_prefix config_index)).

(** Whether [server.start()] is reached, and whether it succeeds. *)
Definition start_called {Json TermWeight} (w : World Json TermWeight)
    (config : Document Json) : bool :=
  match cfg_ranking (members config) with
  | Some config_ranking =>
      create_model w config_ranking && negb (server_initialize w <? 0)%Z
  | None => false
  end.

Definition serving {Json TermWeight} (w : World Json TermWeight)
    (config : Document Json) : bool :=
  start_called w config && negb (server_start w <? 0)%Z.

(** What [index->dump] is asked to write at exit, according to the
    "index" object of the configuration. *)
Definition dump_at_exit {Json} (config : Document Json) : list Event :=
  match cfg_index (members config) with
  | Some config_index =>
      if default false (ix_dump_on_exit config_index)
      then [EvDump (default "" (ix_snapshot_prefix config_index))]
      else []
  | None => []
  end.

Definition is_component_event (e : Event) : bool :=
  match e with
  | EvSetvbuf _ | EvSetNewHandler | EvStderr _ _ | EvFopen _ | EvFclose _
  | EvInitLogger _ | EvLog _ _ _ => false
  | _ => true
  end.

(** What undoes a start: the stop of the component, preceded by the dump
    for the maintenance thread; a server whose [start()] failed is not
    stopped. *)
Definition stop_of {Json TermWeight} (w : World Json TermWeight)
    (config : Document Json) (e : Event) : list Event :=
  match e with
  | EvStartMaintain _ _ => dump_at_exit config ++ [EvStopMaintain]
  | EvPipelineStart => [EvPipelineStop]
  | EvServerStart => if (server_start w <? 0)%Z then [] else [EvServerStop]
  | _ => []
  end.

Definition summary {Json TermWeight} (w : World Json TermWeight)
    (config : Document Json) : Outcome Z * list Event :=
  match index_config w config with
  | None => (Normal (-1)%Z, [])
  | Some config_index =>
      match index_created w config_index with
      | inl (e, _) => (Thrown e, [])
      | inr _ =>
          let interval := default 300%Z (ix_maintain_interval config_index) in
          let starts :=
            [EvStartMaintain interval interval; EvPipelineStart]
            ++ (if start_called w config then [EvServerStart] else []) in
          if serving w config then
            match wait_for_exit_signal (signals w) with
            | None => (Blocked, starts)
            | Some _ =>
                (Normal 0%Z,
                 starts ++ concat (map (stop_of w config) (rev starts)))
            end
          else
            (Normal (-1)%Z,
             starts ++ concat (map (stop_of w config) (rev starts)))
      end
  end.

End Main.

(** A run of the process: the configuration asks for restore on start-up
    and dump on exit under the prefix "snap", and has no "ranking" entry;
    the snapshot cannot be read and the dump fails too. *)
Module MainScenario.
Import ServerMain Main.

Definition sample_index_config : IndexConfig :=
  {| ix_initial_buckets := None; ix_max_size := Some 10%Z;
     ix_maintain_interval := None; ix_restore_on_startup := Some true;
     ix_dump_on_exit := Some true; ix_snapshot_prefix := Some "snap";
     ix_update_thread_num := None; ix_update_queue_size := None;
     ix_default_ttl := None |}.

Definition sample_config : Config unit :=
  Build_Config (Some "log.conf") (Some tt) (Some sample_index_config) None None.

Definition sample_world : World unit float :=
  {| fopen := λ name, if String.eqb name "conf/app.json" then Some "{}" else None;
     parse_stream := λ _, Parsed sample_config;
     dirname := λ _, "conf";
     init_logger := λ _, 0%Z;
     feature_spaces_initialize := λ _, 0%Z;
     restore := λ _ _ _, inl (ios_base_failure "basic_ios::clear");
     dump_failure := λ _, Some "disk full";
     create_model := λ _, true;
     server_initialize := 0;
     server_start := 0;
     signals := [SIGHUP; SIGINT; SIGTERM] |}.

Definition sample_argv : list string := ["redgiant"; "conf/app.json"].

End MainScenario.

(** ** The feature cache over many calls *)

(** What a [FeatureCache] keeps true between calls of
    [create_or_get_feature], and a sequence of such calls. *)
Module FeatureCacheRuns.
Import FeatureCache.

(** The object cached under an id carries that id. *)
Definition ids_agree (m : Memory) : Prop :=
  ∀ id a f, features_ (cache m) !! id = Some (object_at a) →
            heap m !! a = Some f → feature_id f = id.

(** Two ids never share an object. *)
Definition one_object_per_id (m : Memory) : Prop :=
  ∀ i j p, features_ (cache m) !! i = Some p →
           features_ (cache m) !! j = Some p → i = j.

(** Every [Feature] on the heap is cached: as many objects as ids. *)
Definition no_orphans (m : Memory) : Prop :=
  size (features_ (cache m)) = length (heap m).

Definition consistent (m : Memory) : Prop :=
  cache_wf m ∧ ids_agree m ∧ one_object_per_id m ∧ no_orphans m.

Section FeatureCacheRuns.
Variable calculate_feature_id : FeatureSpace → string → N.
Variable kInvalidId : N.

(** One call after the other, keeping the pointers returned. *)
Fixpoint calls (requests : list (string * SpaceRef))
  : State Memory (list shared_ptr) :=
  match requests with
  | [] => mret []
  | (feature_key, space) :: rest =>
      p ← call calculate_feature_id kInvalidId feature_key space;
      ps ← calls rest;
      mret (p :: ps)
  end.

End FeatureCacheRuns.

(** Five requests on the cache of the unit test, by name and by handle. *)
Definition test_requests : list (string * SpaceRef) :=
  [("111", ByName "A");
   ("xxx", ByHandle FeatureCacheScenario.space_b);
   ("yyy", ByHandle FeatureCacheScenario.space_c);
   ("222", ByHandle FeatureCacheScenario.space_c);
   ("222", ByName "CCC")].

End FeatureCacheRuns.

(** ** The event index over many calls, and its restoring constructor *)

Module EventIndexRuns.
Import PostingStore BaseIndex EventIndex.

Section EventIndexRuns.
Context {TermWeight : Type}.

(** The public member functions, as calls. *)
Inductive Call : Type :=
| GetExpireTableSize
| Update (doc_id : DocId) (term_id : TermId) (weights : TermWeight)
    (expire_time : ExpireTime)
| BatchUpdate (batch : list (EventTuple TermWeight))
| Apply (expire_time : ExpireTime)
| Dump (dumper : Snapshot.Dumper TermWeight).

Definition run_call (c : Call) : State (BaseEventIndex TermWeight) unit :=
  match c with
  | GetExpireTableSize => get_expire_table_size ;; mret tt
  | Update doc_id term_id weights expire_time =>
      update doc_id term_id weights expire_time ;; mret tt
  | BatchUpdate batch => batch_update batch ;; mret tt
  | Apply expire_time => apply expire_time ;; mret tt
  | Dump dumper => dump dumper ;; mret tt
  end.

Fixpoint run_calls (calls : list Call) : State (BaseEventIndex TermWeight) unit :=
  match calls with
  | [] => mret tt
  | c :: rest => run_call c ;; run_calls rest
  end.

(** What a call does to the changeset mutex, read off the first statement
    of each member function. *)
Definition locks_of (c : Call) : list MutexOp :=
  match c with
  | Dump _ => []
  | _ => [Lock; Unlock]
  end.

(** A mutex history in which lock and unlock alternate, starting and ending
    unlocked: a [std::mutex] is never locked again by its holder. *)
Fixpoint alternates (held : bool) (history : list MutexOp) : bool :=
  match history with
  | [] => negb held
  | Lock :: rest => negb held && alternates true rest
  | Unlock :: rest => held && alternates false rest
  end.

(** *** The restoring constructor

    [BaseEventIndex(initial_buckets, max_size, loader)], lines 10 to 14: the
    base class is built from the loader, then [max_size_] is set, then
    [expire_] is built from the same loader.  The two loading constructors,
    [BaseIndex(initial_buckets, loader)] and [ExpireTable(loader)], are
    outside this slice: each is a parameter that consumes the front of the
    stream and hands back the rest, or throws.  A base index built from a
    loader has nothing staged. *)
Abbreviation Loader := (list (Snapshot.DumpItem TermWeight)).

Variable load_base : Z → Loader → ServerMain.exception + (PostingIndex TermWeight * Loader).
Variable load_expire : Loader → ServerMain.exception + (ExpireTable.ExpireTable * Loader).

Definition new_BaseEventIndex (initial_buckets max_size : Z) (loader : Loader)
  : ServerMain.exception + (BaseEventIndex TermWeight * Loader) :=
  match load_base initial_buckets loader with
  | inl e => inl e
  | inr (index, loader1) =>
      match load_expire loader1 with
      | inl e => inl e
      | inr (expire, loader2) =>
          inr (Build_BaseEventIndex index [] [] max_size expire, loader2)
      end
  end.

End EventIndexRuns.
Arguments Call : clear implicits.

(** Modelled from the spec: loaders for the two sections of the snapshot
    sink (the loader classes are outside this slice).  The postings loader
    reads the per-term items at the front of the stream; the expiration
    loader reads one expiration item and checks its count.  A malformed
    stream is an I/O failure. *)
Section Loaders.
Context {TermWeight : Type}.

Fixpoint read_postings (loader : list (Snapshot.DumpItem TermWeight))
  : PostingIndex TermWeight * list (Snapshot.DumpItem TermWeight) :=
  match loader with
  | Snapshot.TermPostings term count postings :: rest =>
      let '(index, rest') := read_postings rest in
      (<[term := postings]> index, rest')
  | _ => (∅, loader)
  end.

Definition sample_load_base (initial_buckets : Z)
    (loader : list (Snapshot.DumpItem TermWeight))
  : ServerMain.exception
    + (PostingIndex TermWeight * list (Snapshot.DumpItem TermWeight)) :=
  inr (read_postings loader).

Definition sample_load_expire (loader : list (Snapshot.DumpItem TermWeight))
  : ServerMain.exception
    + (ExpireTable.ExpireTable * list (Snapshot.DumpItem TermWeight)) :=
  match loader with
  | Snapshot.Expirations count entries :: rest =>
      if (count =? ExpireTable.size entries)%Z then inr (entries, rest)
      else inl (ServerMain.ios_base_failure "expiration count")
  | _ => inl (ServerMain.ios_base_failure "expiration section")
  end.

End Loaders.

End EventIndexRuns.

(** * Part II: properties *)

(** ** Machine integers *)

Module MachineIntFacts.

Lemma to_int_small z : (INT_MIN <= z <= INT_MAX)%Z → to_int z = z.
Proof.
  unfold to_int, INT_MIN, INT_MAX. intros Hz.
  rewrite Z.mod_small by lia. lia.
Qed.

Lemma to_int_idem z : to_int (to_int z) = to_int z.
Proof.
  unfold to_int.
  replace ((z + 2 ^ 31) mod 2 ^ 32 - 2 ^ 31 + 2 ^ 31)%Z
    with ((z + 2 ^ 31) mod 2 ^ 32)%Z by lia.
  by rewrite Z.mod_mod by lia.
Qed.

Lemma to_int_add_l a b : to_int (to_int a + b) = to_int (a + b).
Proof.
  unfold to_int.
  replace ((a + 2 ^ 31) mod 2 ^ 32 - 2 ^ 31 + b + 2 ^ 31)%Z
    with ((a + 2 ^ 31) mod 2 ^ 32 + b)%Z by lia.
  rewrite Zplus_mod_idemp_l. do 2 f_equal. lia.
Qed.

Lemma int_add_0_l z : int_add 0 (to_int z) = to_int z.
Proof. unfold int_add. rewrite Z.add_0_l. apply to_int_idem. Qed.

Lemma fold_int_add rs a :
  fold_left int_add rs (to_int a) = to_int (a + fold_right Z.add 0%Z rs).
Proof.
  revert a. induction rs as [|r rs IH]; intros a; simpl.
  - by rewrite Z.add_0_r.
  - unfold int_add at 2. rewrite to_int_add_l, IH. f_equal. lia.
Qed.

End MachineIntFacts.
Import MachineIntFacts.

(** ** Posting store *)

Module PostingStoreFacts.
Import PostingStore.

Section PostingStoreFacts.
Context {TermWeight : Type}.
Implicit Types (l : PostingList TermWeight) (idx : PostingIndex TermWeight).

Lemma list_find_remove_eq doc l : list_find doc (list_remove doc l) = None.
Proof.
  induction l as [|[d w] l IH]; simpl; [done|].
  destruct (N.eqb_spec d doc) as [->|Hne]; simpl; [done|].
  by destruct (N.eqb_spec d doc).
Qed.

Lemma list_find_remove_ne doc doc' l :
  doc ≠ doc' → list_find doc (list_remove doc' l) = list_find doc l.
Proof.
  intros Hne. induction l as [|[d w] l IH]; simpl; [done|].
  destruct (N.eqb_spec d doc') as [->|Hd]; simpl.
  - destruct (N.eqb_spec doc' doc); [congruence|done].
  - by rewrite IH.
Qed.

Lemma list_find_remove_None doc doc' l :
  list_find doc l = None → list_find doc (list_remove doc' l) = None.
Proof.
  intros Hnone. destruct (decide (doc = doc')) as [->|Hne].
  - apply list_find_remove_eq.
  - by rewrite list_find_remove_ne.
Qed.

Lemma list_find_upsert_eq doc w l : list_find doc (list_upsert doc w l) = Some w.
Proof.
  induction l as [|[d w'] l IH]; simpl.
  - by rewrite N.eqb_refl.
  - destruct (N.ltb_spec doc d); simpl; [by rewrite N.eqb_refl|].
    destruct (N.eqb_spec doc d) as [->|Hne]; simpl; [by rewrite N.eqb_refl|].
    destruct (N.eqb_spec d doc); [congruence|done].
Qed.

Lemma posting_remove_eq term doc idx : posting term doc (remove term doc idx) = None.
Proof.
  unfold posting, lookup, remove. rewrite lookup_alter_eq.
  destruct (idx !! term) as [l|]; simpl; [apply list_find_remove_eq|done].
Qed.

Lemma posting_remove_None term doc term' doc' idx :
  posting term doc idx = None →
  posting term doc (remove term' doc' idx) = None.
Proof.
  unfold posting, lookup, remove. intros Hnone.
  destruct (decide (term' = term)) as [->|Hne].
  - rewrite lookup_alter_eq.
    destruct (idx !! term) as [l|]; simpl in *; [|done].
    by apply list_find_remove_None.
  - by rewrite lookup_alter_ne.
Qed.

Lemma posting_remove_ne term doc term' doc' idx :
  (term', doc') ≠ (term, doc) →
  posting term doc (remove term' doc' idx) = posting term doc idx.
Proof.
  unfold posting, lookup, remove. intros Hne.
  destruct (decide (term' = term)) as [->|Hterm].
  - rewrite lookup_alter_eq.
    destruct (idx !! term) as [l|]; simpl; [|done].
    apply list_find_remove_ne. congruence.
  - by rewrite lookup_alter_ne.
Qed.

Lemma posting_upsert_eq term doc w idx :
  posting term doc (upsert term doc w idx) = Some w.
Proof.
  unfold posting, upsert. unfold lookup at 1.
  rewrite lookup_insert_eq. simpl. apply list_find_upsert_eq.
Qed.

End PostingStoreFacts.
End PostingStoreFacts.

(** ** Expiration table *)

Module ExpireTableFacts.
Import ExpireTable.

Lemma key_eqb_eq a b : key_eqb a b = true ↔ a = b.
Proof.
  destruct a as [ta da], b as [tb db]. unfold key_eqb. simpl.
  rewrite andb_true_iff, !N.eqb_eq. split.
  - by intros [-> ->].
  - intros [= -> ->]. done.
Qed.

Lemma key_eqb_refl a : key_eqb a a = true.
Proof. by apply key_eqb_eq. Qed.

Lemma key_eqb_neq a b : a ≠ b → key_eqb a b = false.
Proof.
  intros Hne. destruct (key_eqb a b) eqn:E; [|done].
  by apply key_eqb_eq in E.
Qed.

Lemma find_None_keys key (tbl : ExpireTable) :
  find key tbl = None ↔ ¬ In key (map fst tbl).
Proof.
  induction tbl as [|[k t] tbl IH]; simpl; [tauto|].
  destruct (key_eqb k key) eqn:E.
  - apply key_eqb_eq in E. subst. split; [done|]. tauto.
  - rewrite IH. split; [|tauto].
    intros Hnin [->|Hin]; [|done]. by rewrite key_eqb_refl in E.
Qed.

(** *** [erase] and [enqueue] *)

Lemma find_erase_eq key tbl : find key (erase key tbl) = None.
Proof.
  induction tbl as [|[k t] tbl IH]; simpl; [done|].
  destruct (key_eqb k key) eqn:E; simpl; [done|]. by rewrite E.
Qed.

Lemma find_erase_ne k key tbl : k ≠ key → find k (erase key tbl) = find k tbl.
Proof.
  intros Hne. induction tbl as [|[k' t] tbl IH]; simpl; [done|].
  destruct (key_eqb k' key) eqn:E; simpl.
  - apply key_eqb_eq in E. subst k'. by rewrite (key_eqb_neq key k).
  - by rewrite IH.
Qed.

Lemma erase_fresh key tbl : find key tbl = None → erase key tbl = tbl.
Proof.
  induction tbl as [|[k t] tbl IH]; simpl; [done|].
  destruct (key_eqb k key) eqn:E; simpl; [done|].
  intros Hnone. by rewrite IH.
Qed.

Lemma find_enqueue_fresh key t tbl :
  find key tbl = None → find key (enqueue key t tbl) = Some t.
Proof.
  induction tbl as [|[k t'] tbl IH]; simpl.
  - by rewrite key_eqb_refl.
  - destruct (key_eqb k key) eqn:E; [done|]. intros Hnone.
    destruct (t <? t')%Z; simpl.
    + by rewrite key_eqb_refl.
    + rewrite E. by apply IH.
Qed.

Lemma find_enqueue_ne k key t tbl :
  k ≠ key → find k (enqueue key t tbl) = find k tbl.
Proof.
  intros Hne. induction tbl as [|[k' t'] tbl IH]; simpl.
  - by rewrite (key_eqb_neq key k).
  - destruct (t <? t')%Z; simpl.
    + by rewrite (key_eqb_neq key k).
    + by rewrite IH.
Qed.

Lemma erase_enqueue_fresh key t tbl :
  find key tbl = None → erase key (enqueue key t tbl) = tbl.
Proof.
  induction tbl as [|[k t'] tbl IH]; simpl.
  - by rewrite key_eqb_refl.
  - destruct (key_eqb k key) eqn:E; [done|]. intros Hnone.
    destruct (t <? t')%Z; simpl.
    + rewrite key_eqb_refl. simpl. rewrite E. simpl.
      f_equal. by apply erase_fresh.
    + rewrite E. simpl. f_equal. by apply IH.
Qed.

Lemma length_enqueue key t tbl : length (enqueue key t tbl) = S (length tbl).
Proof.
  induction tbl as [|[k t'] tbl IH]; simpl; [done|].
  destruct (t <? t')%Z; simpl; [done|]. by rewrite IH.
Qed.

Lemma length_erase key tbl :
  one_entry_per_key tbl → is_Some (find key tbl) →
  S (length (erase key tbl)) = length tbl.
Proof.
  unfold one_entry_per_key.
  induction tbl as [|[k t] tbl IH]; simpl; intros Hnd Hsome.
  - by destruct Hsome.
  - apply NoDup_cons in Hnd as [Hnin Hnd].
    destruct (key_eqb k key) eqn:E; simpl.
    + apply key_eqb_eq in E. subst k.
      rewrite erase_fresh; [done|]. apply find_None_keys.
      by rewrite <- list_elem_of_In.
    + f_equal. by apply IH.
Qed.

Lemma keys_erase key tbl :
  map fst (erase key tbl) = List.filter (λ k, negb (key_eqb k key)) (map fst tbl).
Proof.
  induction tbl as [|[k t] tbl IH]; simpl; [done|].
  destruct (key_eqb k key); simpl; [done|]. by rewrite IH.
Qed.

Lemma keys_enqueue key t tbl : map fst (enqueue key t tbl) ≡ₚ key :: map fst tbl.
Proof.
  induction tbl as [|[k t'] tbl IH]; simpl; [done|].
  destruct (t <? t')%Z; simpl; [done|].
  rewrite IH. apply Permutation_swap.
Qed.

Lemma erase_one_entry_per_key key tbl :
  one_entry_per_key tbl → one_entry_per_key (erase key tbl).
Proof.
  unfold one_entry_per_key. rewrite keys_erase.
  induction (map fst tbl) as [|k ks IH]; simpl; intros Hnd; [done|].
  apply NoDup_cons in Hnd as [Hnin Hnd].
  destruct (key_eqb k key); simpl; [by apply IH|].
  apply NoDup_cons. split; [|by apply IH].
  rewrite list_elem_of_In, filter_In. rewrite <- list_elem_of_In. tauto.
Qed.

Lemma enqueue_one_entry_per_key key t tbl :
  find key tbl = None → one_entry_per_key tbl →
  one_entry_per_key (enqueue key t tbl).
Proof.
  unfold one_entry_per_key. intros Hnone Hnd.
  rewrite keys_enqueue. apply NoDup_cons. split; [|done].
  rewrite list_elem_of_In. by apply find_None_keys.
Qed.

(** *** Ascending deadlines *)

Lemma by_deadline_app (l1 l2 : ExpireTable) :
  by_deadline (l1 ++ l2) →
  by_deadline l1 ∧ by_deadline l2 ∧
  ∀ e1 e2, In e1 l1 → In e2 l2 → (snd e1 <= snd e2)%Z.
Proof.
  unfold by_deadline. induction l1 as [|e l1 IH]; simpl; intros Hs.
  - split; [constructor|]. split; [done|]. tauto.
  - apply StronglySorted_inv in Hs as [Hs Hall].
    destruct (IH Hs) as (H1 & H2 & H12).
    rewrite List.Forall_app in Hall. destruct Hall as [Hall1 Hall2].
    split; [by constructor|]. split; [done|].
    intros e1 e2 [<-|Hin1] Hin2.
    + rewrite List.Forall_forall in Hall2. by apply Hall2.
    + by apply H12.
Qed.

Lemma erase_by_deadline key tbl : by_deadline tbl → by_deadline (erase key tbl).
Proof.
  unfold by_deadline, erase. induction 1 as [|e tbl Hs IH Hall]; simpl.
  - constructor.
  - destruct (negb (key_eqb e.1 key)); [|done].
    constructor; [done|].
    rewrite List.Forall_forall in *. intros x Hx.
    apply filter_In in Hx as [Hx _]. by apply Hall.
Qed.

Lemma in_enqueue x key t tbl :
  In x (enqueue key t tbl) ↔ x = (key, t) ∨ In x tbl.
Proof.
  induction tbl as [|e tbl IH]; simpl; [intuition congruence|].
  destruct (t <? snd e)%Z; simpl; [intuition congruence|].
  rewrite IH. intuition congruence.
Qed.

Lemma enqueue_by_deadline key t tbl :
  by_deadline tbl → by_deadline (enqueue key t tbl).
Proof.
  unfold by_deadline. induction 1 as [|e tbl Hs IH Hall]; simpl.
  - repeat constructor.
  - destruct (Z.ltb_spec t (snd e)) as [Hlt|Hge].
    + constructor; [by constructor|].
      constructor; [unfold deadline_le; simpl; lia|].
      rewrite List.Forall_forall in *. intros x Hx.
      specialize (Hall x Hx). unfold deadline_le in *. simpl. lia.
    + constructor; [done|].
      rewrite List.Forall_forall in *. intros x Hx.
      apply in_enqueue in Hx as [->|Hx]; [done|by apply Hall].
Qed.

Lemma update_well_formed key t tbl :
  well_formed tbl → well_formed (update key t tbl).
Proof.
  intros [Hs Hnd]. split.
  - by apply enqueue_by_deadline, erase_by_deadline.
  - apply enqueue_one_entry_per_key; [apply find_erase_eq|].
    by apply erase_one_entry_per_key.
Qed.

Lemma empty_well_formed : well_formed empty.
Proof. split; constructor. Qed.

(** *** Popping *)

Lemma pop_due_app now max_batch tbl :
  tbl = fst (pop_due now max_batch tbl) ++ snd (pop_due now max_batch tbl).
Proof.
  revert max_batch. induction tbl as [|e tbl IH]; intros b; simpl; [done|].
  destruct ((0 <? b)%Z && (snd e <=? now)%Z); [|done].
  specialize (IH (b - 1)%Z). destruct (pop_due now (b - 1) tbl) as [p r].
  simpl in *. by f_equal.
Qed.

Lemma shed_app max_size tbl :
  tbl = fst (shed max_size tbl) ++ snd (shed max_size tbl).
Proof.
  induction tbl as [|e tbl IH]; simpl; [done|].
  destruct (max_size <? size (e :: tbl))%Z; [|done].
  destruct (shed max_size tbl) as [p r]. simpl in *. by f_equal.
Qed.

Lemma filter_due_nil now (tbl : ExpireTable) e :
  (now < snd e)%Z → List.Forall (deadline_le e) tbl →
  List.filter (λ x, (snd x <=? now)%Z) tbl = [].
Proof.
  intros Hlate. induction 1 as [|x tbl Hx _ IH]; simpl; [done|].
  unfold deadline_le in Hx.
  destruct (Z.leb_spec (snd x) now); [lia|done].
Qed.

Lemma pop_due_due now max_batch tbl :
  by_deadline tbl → (0 <= max_batch)%Z →
  fst (pop_due now max_batch tbl) =
  take (Z.to_nat max_batch) (List.filter (λ e, (snd e <=? now)%Z) tbl).
Proof.
  unfold by_deadline. intros Hs. revert max_batch.
  induction Hs as [|e tbl Hs IH Hall]; intros b Hb; simpl.
  - by rewrite take_nil.
  - destruct (Z.ltb_spec 0 b) as [Hpos|Hzero]; simpl.
    + destruct (Z.leb_spec (snd e) now) as [Hdue|Hlate].
      * specialize (IH (b - 1)%Z ltac:(lia)).
        destruct (pop_due now (b - 1) tbl) as [p r]. simpl in *.
        replace (Z.to_nat b) with (S (Z.to_nat (b - 1))) by lia.
        simpl. by f_equal.
      * by rewrite (filter_due_nil now tbl e), take_nil.
    + replace b with 0%Z by lia. simpl.
      by destruct (snd e <=? now)%Z.
Qed.

Lemma shed_size max_size tbl :
  (0 <= max_size)%Z →
  size (snd (shed max_size tbl)) = Z.min (size tbl) max_size.
Proof.
  intros Hm. induction tbl as [|e tbl IH]; simpl.
  - unfold size. simpl. lia.
  - destruct (Z.ltb_spec max_size (size (e :: tbl))) as [Hover|Hfit].
    + destruct (shed max_size tbl) as [p r]. simpl in *.
      rewrite IH. unfold size in *. simpl in *. lia.
    + simpl. lia.
Qed.

Lemma shed_fits max_size tbl :
  (size tbl <= max_size)%Z → shed max_size tbl = ([], tbl).
Proof.
  destruct tbl as [|e tbl]; simpl; [done|]. intros Hfit.
  by destruct (Z.ltb_spec max_size (size (e :: tbl))); [lia|].
Qed.

Lemma shed_over max_size tbl :
  fst (shed max_size tbl) ≠ [] → (max_size < size tbl)%Z.
Proof.
  intros Hne. destruct (Z.ltb_spec max_size (size tbl)); [done|].
  by rewrite shed_fits in Hne.
Qed.

Lemma size_app (l1 l2 : ExpireTable) : size (l1 ++ l2) = (size l1 + size l2)%Z.
Proof. unfold size. rewrite length_app. lia. Qed.

Lemma size_nonneg (l : ExpireTable) : (0 <= size l)%Z.
Proof. unfold size. lia. Qed.

End ExpireTableFacts.

(** ** The base index *)

Module BaseIndexFacts.
Import PostingStore PostingStoreFacts BaseIndex.

Section BaseIndexFacts.
Context {TermWeight : Type}.
Implicit Types (idx : PostingIndex TermWeight) (cs : ChangeSet TermWeight).

Lemma publish_app cs1 cs2 idx :
  publish (cs1 ++ cs2) idx = publish cs2 (publish cs1 idx).
Proof. apply fold_left_app. Qed.

(** Deletes never bring a posting back. *)
Lemma publish_deletes_None (keys : list Key) term doc idx :
  posting term doc idx = None →
  posting term doc
    (publish (map (λ k, DELETE (term_id k) (doc_id k)) keys) idx) = None.
Proof.
  revert idx. induction keys as [|k keys IH]; intros idx Hnone; simpl; [done|].
  apply IH. by apply posting_remove_None.
Qed.

(** After a run of deletes every deleted posting is gone. *)
Lemma publish_deletes_gone (keys : list Key) key idx :
  In key keys →
  posting (term_id key) (doc_id key)
    (publish (map (λ k, DELETE (term_id k) (doc_id k)) keys) idx) = None.
Proof.
  revert idx. induction keys as [|k keys IH]; intros idx; simpl; [done|].
  intros [->|Hin].
  - apply publish_deletes_None, posting_remove_eq.
  - by apply IH.
Qed.

(** Deletes of other keys leave a posting alone. *)
Lemma publish_deletes_other (keys : list Key) term doc idx :
  ¬ In {| term_id := term; doc_id := doc |} keys →
  posting term doc
    (publish (map (λ k, DELETE (term_id k) (doc_id k)) keys) idx)
  = posting term doc idx.
Proof.
  revert idx. induction keys as [|k keys IH]; intros idx Hnin; simpl; [done|].
  rewrite IH by (simpl in Hnin; tauto).
  apply posting_remove_ne. intros [= Ht Hd]. apply Hnin. left.
  destruct k. simpl in *. by subst.
Qed.

End BaseIndexFacts.
End BaseIndexFacts.

(** ** The event index *)

Module EventIndexFacts.
Import PostingStore PostingStoreFacts BaseIndex BaseIndexFacts EventIndex.
Import ExpireTableFacts.

Section EventIndexFacts.
Context {TermWeight : Type}.
Implicit Types (s : BaseEventIndex TermWeight).

(** *** What each operation does to the object *)

Lemma update_eq doc_id term_id weights expire_time s :
  update doc_id term_id weights expire_time s =
  (1%Z,
   Build_BaseEventIndex (index_ s)
     (changeset_ s ++ [UPSERT term_id doc_id weights])
     ((changeset_mutex_ s ++ [Lock]) ++ [Unlock]) (max_size_ s)
     (ExpireTable.update {| term_id := term_id; doc_id := doc_id |}
        expire_time (expire_ s))).
Proof. reflexivity. Qed.

Lemma get_expire_table_size_eq s :
  get_expire_table_size s =
  (ExpireTable.size (expire_ s),
   set_mutex ((changeset_mutex_ s ++ [Lock]) ++ [Unlock]) s).
Proof. reflexivity. Qed.

Lemma same_data_set_mutex h s : same_data (set_mutex h s) s.
Proof. by repeat split. Qed.

Lemma batch_update_loop_cons tuple batch ret s :
  batch_update_loop (tuple :: batch) ret s =
  batch_update_loop batch (int_add ret 1)
    (Build_BaseEventIndex (index_ s)
       (changeset_ s ++ [UPSERT (get1 tuple) (get0 tuple) (get2 tuple)])
       (changeset_mutex_ s) (max_size_ s)
       (ExpireTable.update {| term_id := get1 tuple; doc_id := get0 tuple |}
          (get3 tuple) (expire_ s))).
Proof. reflexivity. Qed.

Lemma update_each_cons tuple batch s :
  update_each (tuple :: batch) s =
  let s1 := (update (get0 tuple) (get1 tuple) (get2 tuple) (get3 tuple) s).2 in
  (1%Z :: (update_each batch s1).1, (update_each batch s1).2).
Proof.
  change (update_each (tuple :: batch) s) with
    (let '(rs, s') :=
       update_each batch
         (update (get0 tuple) (get1 tuple) (get2 tuple) (get3 tuple) s).2 in
     (1%Z :: rs, s')).
  simpl. by destruct (update_each batch _).
Qed.

(** The loop of [batch_update] against one [update] call per tuple. *)
Lemma batch_update_loop_each batch ret s1 s2 :
  same_data s1 s2 →
  (batch_update_loop batch ret s1).1 = fold_left int_add (update_each batch s2).1 ret ∧
  same_data (batch_update_loop batch ret s1).2 (update_each batch s2).2.
Proof.
  revert ret s1 s2. induction batch as [|tuple batch IH]; intros ret s1 s2 Hsame.
  - done.
  - rewrite batch_update_loop_cons, update_each_cons. cbn zeta.
    rewrite update_eq. cbn [fst snd fold_left].
    apply IH. destruct Hsame as (Hi & Hc & Hx & He).
    unfold same_data. cbn [index_ changeset_ max_size_ expire_].
    by rewrite Hi, Hc, Hx, He.
Qed.

Lemma batch_update_loop_mutex batch ret s :
  changeset_mutex_ (batch_update_loop batch ret s).2 = changeset_mutex_ s.
Proof.
  revert ret s. induction batch as [|tuple batch IH]; intros ret s; [done|].
  rewrite batch_update_loop_cons. by rewrite IH.
Qed.

Lemma batch_update_eq batch s :
  batch_update batch s =
  ((batch_update_loop batch 0%Z (set_mutex (changeset_mutex_ s ++ [Lock]) s)).1,
   set_mutex ((changeset_mutex_ s ++ [Lock]) ++ [Unlock])
     (batch_update_loop batch 0%Z (set_mutex (changeset_mutex_ s ++ [Lock]) s)).2).
Proof.
  pose proof (batch_update_loop_mutex batch 0%Z
                (set_mutex (changeset_mutex_ s ++ [Lock]) s)) as Hm.
  change (batch_update batch s) with
    (let '(r, s') :=
       batch_update_loop batch 0%Z (set_mutex (changeset_mutex_ s ++ [Lock]) s) in
     (r, set_mutex (changeset_mutex_ s' ++ [Unlock]) s')).
  destruct (batch_update_loop batch 0%Z _) as [r s']. simpl in *.
  by rewrite Hm.
Qed.

Lemma update_index doc_id term_id weights expire_time s :
  index_ (update doc_id term_id weights expire_time s).2 = index_ s ∧
  max_size_ (update doc_id term_id weights expire_time s).2 = max_size_ s.
Proof. done. Qed.

Lemma batch_update_loop_index batch ret s :
  index_ (batch_update_loop batch ret s).2 = index_ s ∧
  max_size_ (batch_update_loop batch ret s).2 = max_size_ s.
Proof.
  revert ret s. induction batch as [|tuple batch IH]; intros ret s; [done|].
  rewrite batch_update_loop_cons.
  by rewrite !(proj1 (IH _ _)), !(proj2 (IH _ _)).
Qed.

Lemma batch_update_index batch s :
  index_ (batch_update batch s).2 = index_ s ∧
  max_size_ (batch_update batch s).2 = max_size_ s.
Proof.
  rewrite batch_update_eq. simpl.
  by rewrite !(proj1 (batch_update_loop_index _ _ _)),
             !(proj2 (batch_update_loop_index _ _ _)).
Qed.

Lemma remove_expired_eq results s :
  remove_expired results s =
  (tt, set_changeset (changeset_ s ++ map delete_of results) s).
Proof.
  revert s. induction results as [|item results IH]; intros s.
  - destruct s. unfold set_changeset. simpl. by rewrite app_nil_r.
  - change (remove_expired (item :: results) s) with
      (remove_expired results
         (set_changeset (changeset_ s ++ [delete_of item]) s)).
    rewrite IH. unfold set_changeset. simpl. by rewrite <- app_assoc.
Qed.

Lemma apply_eq expire_time s :
  apply expire_time s =
  let staged := changeset_ s ++ map delete_of (popped_by_apply expire_time s) in
  ((to_int (Z.of_nat (length staged)),
    to_int (ExpireTable.size (popped_by_apply expire_time s))),
   Build_BaseEventIndex (publish staged (index_ s)) []
     ((changeset_mutex_ s ++ [Lock]) ++ [Unlock]) (max_size_ s)
     (ExpireTable.expire_with_limit expire_time (max_size_ s) (expire_ s)).2).
Proof.
  unfold popped_by_apply, apply, unique_lock, expire_with_limit,
    apply_changeset, mutex_op.
  unfold mbind, state_bind, mret, state_ret, gets, modify.
  cbn [fst snd set_expire set_mutex max_size_ expire_].
  destruct (ExpireTable.expire_with_limit expire_time (max_size_ s) (expire_ s))
    as [results tbl].
  rewrite remove_expired_eq.
  cbn [fst snd set_changeset set_expire set_mutex index_ changeset_
       max_size_ expire_ apply_internal].
  rewrite int_add_0_l. unfold int_add. rewrite Z.add_0_l.
  reflexivity.
Qed.

Lemma dump_eq (dumper : Snapshot.Dumper TermWeight) s :
  dump dumper s =
  ((size_add (size_add 0 (dump_internal (index_ s) dumper).1)
      (ExpireTable.size (expire_ s)),
    (dump_internal (index_ s) dumper).2
      ++ [Snapshot.Expirations (ExpireTable.size (expire_ s)) (expire_ s)]),
   s).
Proof. reflexivity. Qed.

End EventIndexFacts.
End EventIndexFacts.

(** ** Claims on the expiration table *)

Module ExpireTableClaims.
Import ExpireTable ExpireTableFacts.

Lemma expire_with_limit_app now max_batch tbl :
  tbl = (expire_with_limit now max_batch tbl).1
        ++ (expire_with_limit now max_batch tbl).2.
Proof.
  unfold expire_with_limit.
  pose proof (pop_due_app now max_batch tbl) as H1.
  destruct (pop_due now max_batch tbl) as [due tbl1]. simpl in H1.
  pose proof (shed_app max_batch tbl1) as H2.
  destruct (shed max_batch tbl1) as [extra tbl2]. simpl in *.
  by rewrite <- app_assoc, <- H2.
Qed.

Lemma popped_le_size now max_batch tbl :
  (size (expire_with_limit now max_batch tbl).1 <= size tbl)%Z.
Proof.
  rewrite (expire_with_limit_app now max_batch tbl) at 2.
  rewrite size_app. pose proof (size_nonneg (expire_with_limit now max_batch tbl).2).
  lia.
Qed.

Lemma filter_key_enqueue_fresh key t tbl :
  find key tbl = None →
  List.filter (λ e, key_eqb (fst e) key) (enqueue key t tbl) = [(key, t)].
Proof.
  induction tbl as [|[k t'] tbl IH]; simpl.
  - by rewrite key_eqb_refl.
  - destruct (key_eqb k key) eqn:E; [done|]. intros Hnone.
    destruct (t <? t')%Z; simpl.
    + rewrite key_eqb_refl, E. f_equal.
      clear IH. induction tbl as [|[k2 t2] tbl IH2]; simpl in *; [done|].
      destruct (key_eqb k2 key); [done|]. by apply IH2.
    + rewrite E. by apply IH.
Qed.

(** The invariant survives popping: what remains is a suffix of the queue. *)
Lemma expire_with_limit_well_formed now max_batch tbl :
  well_formed tbl → well_formed (expire_with_limit now max_batch tbl).2.
Proof.
  intros [Hs Hnd]. pose proof (expire_with_limit_app now max_batch tbl) as Happ.
  destruct (expire_with_limit now max_batch tbl) as [popped remaining].
  simpl in *. subst tbl. split.
  - apply by_deadline_app in Hs. tauto.
  - unfold one_entry_per_key in *. rewrite map_app in Hnd.
    apply NoDup_app in Hnd. tauto.
Qed.

(** C5.  On a table kept in ascending deadline order, with a limit that is
    a [size_t], [expire_with_limit(now, max_batch)] pops the due keys (those
    with expire-time ≤ now), at most [max_batch] of them, followed by extra
    pairs; the popped pairs are the oldest ones, in ascending-deadline order
    (the table is the popped pairs followed by the remaining ones); extra
    pairs are popped only when the table held more than the limit, and then
    exactly until the size is the limit; the remaining size never exceeds
    the limit; and no popped pair has a strictly larger expire-time than a
    pair that stays. *)
Theorem expire_with_limit_pops_oldest now max_batch tbl :
  by_deadline tbl → (0 <= max_batch)%Z →
  let due := List.filter (λ e, (snd e <=? now)%Z) tbl in
  let popped := (expire_with_limit now max_batch tbl).1 in
  let remaining := (expire_with_limit now max_batch tbl).2 in
  ∃ extra,
    popped = take (Z.to_nat max_batch) due ++ extra ∧
    tbl = popped ++ remaining ∧
    by_deadline popped ∧
    ((size tbl <= max_batch)%Z → extra = [] ∧ popped = due) ∧
    (extra ≠ [] → (max_batch < size tbl)%Z ∧ size remaining = max_batch) ∧
    (size remaining <= max_batch)%Z ∧
    (∀ p r, In p popped → In r remaining → (snd p <= snd r)%Z).
Proof.
  intros Hs Hb due popped remaining.
  pose proof (expire_with_limit_app now max_batch tbl) as Happ.
  fold popped remaining in Happ.
  assert (by_deadline popped ∧
          ∀ p r, In p popped → In r remaining → (snd p <= snd r)%Z) as [Hpop Hlate].
  { rewrite Happ in Hs. apply by_deadline_app in Hs. tauto. }
  subst popped remaining. unfold expire_with_limit in *.
  pose proof (pop_due_due now max_batch tbl Hs Hb) as Hdue.
  pose proof (pop_due_app now max_batch tbl) as Happ1.
  destruct (pop_due now max_batch tbl) as [p1 tbl1]. simpl in Hdue, Happ1.
  pose proof (shed_size max_batch tbl1 Hb) as Hsize.
  pose proof (shed_over max_batch tbl1) as Hover.
  pose proof (shed_fits max_batch tbl1) as Hfits.
  destruct (shed max_batch tbl1) as [extra tbl2]. simpl in *.
  assert (size tbl1 <= size tbl)%Z as Hle.
  { rewrite Happ1, size_app. pose proof (size_nonneg p1). lia. }
  exists extra. fold due in Hdue. subst p1.
  split; [done|]. split; [done|]. split; [done|]. split; [|split; [|split]].
  - intros Hfit. assert (extra = []) as ->.
    { specialize (Hfits ltac:(lia)). by injection Hfits. }
    split; [done|]. rewrite app_nil_r. apply take_ge.
    assert (length due <= length tbl) by apply List.filter_length_le.
    unfold size in Hfit. lia.
  - intros Hne. specialize (Hover Hne). lia.
  - lia.
  - done.
Qed.

(** C5 at the stress scenario S2: limit 3, four pairs with deadlines 100 to
    400, now = 50. *)
Lemma expire_with_limit_pops_oldest_witness :
  let tbl := EventIndex.expire_ Scenarios.s2_loaded in
  by_deadline tbl ∧ (0 <= 3)%Z ∧
  ∃ extra,
    (expire_with_limit 50 3 tbl).1
      = take (Z.to_nat 3) (List.filter (λ e, (snd e <=? 50)%Z) tbl) ++ extra ∧
    tbl = (expire_with_limit 50 3 tbl).1 ++ (expire_with_limit 50 3 tbl).2 ∧
    by_deadline (expire_with_limit 50 3 tbl).1 ∧
    ((size tbl <= 3)%Z →
       extra = [] ∧
       (expire_with_limit 50 3 tbl).1 = List.filter (λ e, (snd e <=? 50)%Z) tbl) ∧
    (extra ≠ [] →
       (3 < size tbl)%Z ∧ size (expire_with_limit 50 3 tbl).2 = 3%Z) ∧
    (size (expire_with_limit 50 3 tbl).2 <= 3)%Z ∧
    (∀ p r, In p (expire_with_limit 50 3 tbl).1 →
            In r (expire_with_limit 50 3 tbl).2 → (snd p <= snd r)%Z).
Proof.
  assert (by_deadline (EventIndex.expire_ Scenarios.s2_loaded)) as Hs.
  { let t := eval vm_compute in (EventIndex.expire_ Scenarios.s2_loaded) in
    change (by_deadline t).
    repeat constructor; unfold deadline_le; simpl; lia. }
  split; [exact Hs|]. split; [lia|].
  exact (expire_with_limit_pops_oldest 50 3
           (EventIndex.expire_ Scenarios.s2_loaded) Hs ltac:(lia)).
Defined.

End ExpireTableClaims.

(** ** Claims on the event index *)

Module EventIndexClaims.
Import PostingStore PostingStoreFacts BaseIndex BaseIndexFacts.
Import EventIndex EventIndexFacts ExpireTableFacts ExpireTableClaims.

Section EventIndexClaims.
Context {TermWeight : Type}.
Implicit Types (s : BaseEventIndex TermWeight).

(** C1.  When the number of tracked pairs fits an [int], [apply(now)] pops
    the pairs that [expire_with_limit(now, max_size_)] selects from the
    expiration table, stages one DELETE per popped pair, in popping order,
    behind the edits already in the changeset, publishes that changeset into
    the posting store, leaves the changeset empty, and returns a pair whose
    second component is the number of pairs popped.  The changeset mutex is
    locked before and unlocked after. *)
Theorem apply_steps_in_order expire_time s :
  (ExpireTable.size (expire_ s) <= INT_MAX)%Z →
  let popped :=
    (ExpireTable.expire_with_limit expire_time (max_size_ s) (expire_ s)).1 in
  let remaining :=
    (ExpireTable.expire_with_limit expire_time (max_size_ s) (expire_ s)).2 in
  let staged := changeset_ s ++ map delete_of popped in
  apply expire_time s =
  ((to_int (Z.of_nat (length staged)), Z.of_nat (length popped)),
   Build_BaseEventIndex (publish staged (index_ s)) []
     ((changeset_mutex_ s ++ [Lock]) ++ [Unlock]) (max_size_ s) remaining).
Proof.
  intros Hfit popped remaining staged.
  rewrite apply_eq. unfold popped_by_apply. cbn zeta.
  fold popped remaining staged.
  rewrite (to_int_small (ExpireTable.size popped)); [done|].
  pose proof (popped_le_size expire_time (max_size_ s) (expire_ s)) as Hle.
  fold popped in Hle. pose proof (ExpireTableFacts.size_nonneg popped).
  unfold INT_MIN, INT_MAX in *. lia.
Qed.

(** C2.  A sequence of [update] and [batch_update] calls leaves the
    published posting store as it was: every lookup answers as before the
    calls, and [max_size_] is unchanged. *)
Theorem writes_invisible_until_apply (calls : list (WriteCall TermWeight)) s :
  index_ (write_calls calls s).2 = index_ s ∧
  max_size_ (write_calls calls s).2 = max_size_ s ∧
  ∀ term, lookup term (index_ (write_calls calls s).2) = lookup term (index_ s).
Proof.
  assert (index_ (write_calls calls s).2 = index_ s ∧
          max_size_ (write_calls calls s).2 = max_size_ s) as [Hi Hm].
  { revert s. induction calls as [|c calls IH]; intros s; [done|].
    change (write_calls (c :: calls) s) with
      (let '(r, s1) := write_call c s in
       let '(rs, s2) := write_calls calls s1 in (r :: rs, s2)).
    assert (index_ (write_call c s).2 = index_ s ∧
            max_size_ (write_call c s).2 = max_size_ s) as [Hci Hcm].
    { destruct c; [apply update_index|apply batch_update_index]. }
    destruct (write_call c s) as [r s1]. simpl in Hci, Hcm.
    specialize (IH s1). destruct (write_calls calls s1) as [rs s2].
    simpl in *. destruct IH as [-> ->]. done. }
  split; [done|]. split; [done|]. intros term. by rewrite Hi.
Qed.

(** C3, as amended.  If [apply(now)] pops the key [(term, doc)], then after
    the [apply] the posting [(term, doc)] is absent, whatever upserts for it
    the changeset held: the DELETE staged by [apply] follows them in
    changeset order. *)
Theorem expired_key_is_deleted now s term doc :
  In {| term_id := term; doc_id := doc |} (map fst (popped_by_apply now s)) →
  posting term doc (index_ (apply now s).2) = None.
Proof.
  intros Hin. rewrite apply_eq. cbn [snd index_].
  rewrite publish_app.
  replace (map delete_of (popped_by_apply now s))
    with (map (λ k, @DELETE TermWeight (term_id k) (doc_id k))
              (map fst (popped_by_apply now s)))
    by (rewrite map_map; reflexivity).
  exact (publish_deletes_gone _ {| term_id := term; doc_id := doc |} _ Hin).
Qed.

(** The other side: an [update] whose key the next [apply] does not pop,
    because the call moved the deadline past [now], is published with its
    weight.  A re-inserted posting survives through the refreshed deadline,
    not through the order of the changeset. *)
Remark refreshed_upsert_survives now s doc term w expire_time :
  let s1 := (update doc term w expire_time s).2 in
  ¬ In {| term_id := term; doc_id := doc |} (map fst (popped_by_apply now s1)) →
  posting term doc (index_ (apply now s1).2) = Some w.
Proof.
  intros s1 Hnin. rewrite apply_eq. cbn [snd index_].
  subst s1. rewrite update_eq in *. cbn [snd changeset_ index_] in *.
  rewrite !publish_app.
  replace (map delete_of (popped_by_apply now _))
    with (map (λ k, @DELETE TermWeight (term_id k) (doc_id k))
              (map fst (popped_by_apply now
                 (Build_BaseEventIndex (index_ s)
                    (changeset_ s ++ [UPSERT term doc w])
                    ((changeset_mutex_ s ++ [Lock]) ++ [Unlock]) (max_size_ s)
                    (ExpireTable.update {| term_id := term; doc_id := doc |}
                       expire_time (expire_ s))))))
    by (rewrite map_map; reflexivity).
  rewrite publish_deletes_other by done.
  simpl. apply posting_upsert_eq.
Qed.

(** The table invariant holds in every reachable state. *)
Lemma batch_update_loop_well_formed batch ret s :
  ExpireTable.well_formed (expire_ s) →
  ExpireTable.well_formed (expire_ (batch_update_loop batch ret s).2).
Proof.
  revert ret s. induction batch as [|tuple batch IH]; intros ret s Hwf; [done|].
  rewrite batch_update_loop_cons. apply IH. simpl.
  by apply update_well_formed.
Qed.

Lemma reachable_well_formed s :
  reachable s → ExpireTable.well_formed (expire_ s).
Proof.
  induction 1 as [max_size|s _ IH|s d t w e _ IH|s batch _ IH|s now _ IH
                  |s dumper _ IH].
  - apply empty_well_formed.
  - done.
  - rewrite update_eq. simpl. by apply update_well_formed.
  - rewrite batch_update_eq. simpl. by apply batch_update_loop_well_formed.
  - rewrite apply_eq. simpl. by apply expire_with_limit_well_formed.
  - by rewrite dump_eq.
Qed.

(** C4.  [batch_update(batch)] leaves the changeset, the expiration table,
    the posting store and [max_size_] as one [update] call per tuple, in
    batch order, leaves them; and it returns the sum of the values those
    calls return, as an [int]. *)
Theorem batch_update_is_update_each (batch : list (EventTuple TermWeight)) s :
  changeset_ (batch_update batch s).2 = changeset_ (update_each batch s).2 ∧
  expire_ (batch_update batch s).2 = expire_ (update_each batch s).2 ∧
  index_ (batch_update batch s).2 = index_ (update_each batch s).2 ∧
  max_size_ (batch_update batch s).2 = max_size_ (update_each batch s).2 ∧
  (batch_update batch s).1 = to_int (fold_right Z.add 0%Z (update_each batch s).1).
Proof.
  rewrite batch_update_eq. cbn [fst snd].
  destruct (batch_update_loop_each batch 0%Z
              (set_mutex (changeset_mutex_ s ++ [Lock]) s) s
              (same_data_set_mutex _ s)) as [Hret (Hi & Hc & Hx & He)].
  cbn [set_mutex index_ changeset_ max_size_ expire_].
  rewrite Hret, Hi, Hc, Hx, He. repeat split.
  change 0%Z with (to_int 0) at 1. by rewrite fold_int_add.
Qed.

(** C7, what the code does.  [dump] performs no operation on the changeset
    mutex, and leaves the object as it was, whereas [get_expire_table_size],
    [update], [batch_update] and [apply] each lock and unlock it; the sink
    receives the postings section and then the expiration section. *)
Theorem dump_takes_no_lock (dumper : Snapshot.Dumper TermWeight) s :
  changeset_mutex_ (dump dumper s).2 = changeset_mutex_ s ∧
  (dump dumper s).2 = s ∧
  (dump dumper s).1.2 =
    (dumper
       ++ map (λ tl, Snapshot.TermPostings (fst tl) (Z.of_nat (length (snd tl)))
                       (snd tl))
            (map_to_list (index_ s)))
    ++ [Snapshot.Expirations (ExpireTable.size (expire_ s)) (expire_ s)] ∧
  changeset_mutex_ (get_expire_table_size s).2
    = (changeset_mutex_ s ++ [Lock]) ++ [Unlock] ∧
  (∀ d t w e, changeset_mutex_ (update d t w e s).2
    = (changeset_mutex_ s ++ [Lock]) ++ [Unlock]) ∧
  (∀ batch, changeset_mutex_ (batch_update batch s).2
    = (changeset_mutex_ s ++ [Lock]) ++ [Unlock]) ∧
  (∀ now, changeset_mutex_ (apply now s).2
    = (changeset_mutex_ s ++ [Lock]) ++ [Unlock]).
Proof.
  rewrite dump_eq. repeat split.
  - intros batch. by rewrite batch_update_eq.
  - intros now. by rewrite apply_eq.
Qed.

(** C8.  On a well-formed table that tracks the key [(term, doc)],
    refreshing its deadline through [update_expire_internal] records the new
    deadline for the key, as the only entry of that key; the table stays
    well formed (ascending deadlines, one entry per key) and keeps its size;
    the other keys keep their deadlines; and repeating the call changes
    nothing. *)
Theorem update_expire_replaces doc term expire_time s :
  let key := {| term_id := term; doc_id := doc |} in
  ExpireTable.well_formed (expire_ s) →
  is_Some (ExpireTable.find key (expire_ s)) →
  let s' := (update_expire_internal doc term expire_time s).2 in
  ExpireTable.find key (expire_ s') = Some expire_time ∧
  List.filter (λ e, key_eqb (fst e) key) (expire_ s') = [(key, expire_time)] ∧
  ExpireTable.well_formed (expire_ s') ∧
  ExpireTable.size (expire_ s') = ExpireTable.size (expire_ s) ∧
  (∀ k, k ≠ key → ExpireTable.find k (expire_ s') = ExpireTable.find k (expire_ s)) ∧
  (update_expire_internal doc term expire_time s').2 = s'.
Proof.
  intros key Hwf Htracked s'.
  assert (expire_ s' = ExpireTable.update key expire_time (expire_ s)) as Hs'
    by reflexivity.
  pose proof (find_erase_eq key (expire_ s)) as Hfresh.
  rewrite Hs'. unfold ExpireTable.update.
  split; [by apply find_enqueue_fresh|].
  split; [by apply filter_key_enqueue_fresh|].
  split; [by apply update_well_formed|].
  split.
  { unfold ExpireTable.size. rewrite length_enqueue.
    destruct Hwf as [_ Hnd]. by rewrite (length_erase key (expire_ s) Hnd Htracked). }
  split.
  { intros k Hne. rewrite find_enqueue_ne by done. by apply find_erase_ne. }
  change ((update_expire_internal doc term expire_time s').2) with
    (set_expire (ExpireTable.update key expire_time (expire_ s')) s').
  rewrite Hs'. unfold ExpireTable.update.
  rewrite erase_enqueue_fresh by done.
  subst s'. by destruct s.
Qed.

End EventIndexClaims.

Import Scenarios.

(** C1 at the stress scenario S2, [apply(50)] with [max_size_ = 3]. *)
Lemma apply_steps_in_order_witness :
  (ExpireTable.size (expire_ s2_loaded) <= INT_MAX)%Z ∧
  let popped :=
    (ExpireTable.expire_with_limit 50 (max_size_ s2_loaded) (expire_ s2_loaded)).1 in
  let remaining :=
    (ExpireTable.expire_with_limit 50 (max_size_ s2_loaded) (expire_ s2_loaded)).2 in
  let staged := changeset_ s2_loaded ++ map delete_of popped in
  apply 50 s2_loaded =
  ((to_int (Z.of_nat (length staged)), Z.of_nat (length popped)),
   Build_BaseEventIndex (publish staged (index_ s2_loaded)) []
     ((changeset_mutex_ s2_loaded ++ [Lock]) ++ [Unlock]) (max_size_ s2_loaded)
     remaining).
Proof.
  assert (ExpireTable.size (expire_ s2_loaded) <= INT_MAX)%Z as Hfit
    by (vm_compute; discriminate).
  split; [exact Hfit|].
  exact (apply_steps_in_order 50 s2_loaded Hfit).
Defined.

(** C3 as stated fails.  In scenario S1 the posting (10, 100) is upserted
    again with weight 0.75 and deadline 70; [apply(100)] pops the key, and
    the posting is absent afterwards instead of carrying the upserted
    weight. *)
Lemma reinsert_does_not_win :
  ¬ (∀ (s : Index) now term doc w,
       In (UPSERT term doc w) (changeset_ s) →
       In {| term_id := term; doc_id := doc |} (map fst (popped_by_apply now s)) →
       posting term doc (index_ (apply now s).2) = Some w).
Proof.
  intros Hclaim.
  specialize (Hclaim s1_reinserted 100%Z 10%N 100%N 0.75%float).
  assert (posting 10 100 (index_ (apply 100 s1_reinserted).2) = Some 0.75%float)
    as Hwins.
  { apply Hclaim; vm_compute; by left. }
  vm_compute in Hwins. discriminate Hwins.
Qed.

(** C3 as amended, at the same state. *)
Lemma expired_key_is_deleted_witness :
  In {| term_id := 10; doc_id := 100 |}
     (map fst (popped_by_apply 100 s1_reinserted)) ∧
  posting 10 100 (index_ (apply 100 s1_reinserted).2) = None.
Proof.
  assert (In {| term_id := 10; doc_id := 100 |}
             (map fst (popped_by_apply 100 s1_reinserted))) as Hin
    by (vm_compute; by left).
  split; [exact Hin|].
  exact (expired_key_is_deleted 100 s1_reinserted 10 100 Hin).
Defined.

(** C8 in scenario S1: the deadline of (10, 100) moved from 70 to 90. *)
Lemma update_expire_replaces_witness :
  let key := {| term_id := 10; doc_id := 100 |} in
  ExpireTable.well_formed (expire_ s1_reinserted) ∧
  is_Some (ExpireTable.find key (expire_ s1_reinserted)) ∧
  let s' := (update_expire_internal 100 10 90 s1_reinserted).2 in
  ExpireTable.find key (expire_ s') = Some 90%Z ∧
  List.filter (λ e, key_eqb (fst e) key) (expire_ s') = [(key, 90%Z)] ∧
  ExpireTable.well_formed (expire_ s') ∧
  ExpireTable.size (expire_ s') = ExpireTable.size (expire_ s1_reinserted) ∧
  (∀ k, k ≠ key →
     ExpireTable.find k (expire_ s') = ExpireTable.find k (expire_ s1_reinserted)) ∧
  (update_expire_internal 100 10 90 s').2 = s'.
Proof.
  assert (ExpireTable.well_formed (expire_ s1_reinserted)) as Hwf.
  { let t := eval vm_compute in (expire_ s1_reinserted) in
    change (ExpireTable.well_formed t).
    split.
    - repeat constructor.
    - apply NoDup_cons. split; [apply not_elem_of_nil|apply NoDup_nil_2]. }
  assert (is_Some (ExpireTable.find {| term_id := 10; doc_id := 100 |}
                     (expire_ s1_reinserted))) as Htracked
    by (exists 70%Z; reflexivity).
  split; [exact Hwf|]. split; [exact Htracked|].
  exact (update_expire_replaces 100 10 90 s1_reinserted Hwf Htracked).
Defined.

End EventIndexClaims.

(** ** Claims on the feature cache *)

Module FeatureCacheClaims.
Import FeatureCache.

Section FeatureCacheClaims.
Variable calculate_feature_id : FeatureSpace → string → N.
Variable kInvalidId : N.

Abbreviation in_space := (create_or_get_feature_in_space calculate_feature_id kInvalidId).
Abbreviation by_name := (create_or_get_feature calculate_feature_id kInvalidId).

(** The three ways through the overload that takes the space. *)
Lemma in_space_invalid key space m :
  calculate_feature_id space key = kInvalidId →
  in_space key space m = (nullptr, m).
Proof.
  intros Hid. unfold create_or_get_feature_in_space.
  by rewrite Hid, N.eqb_refl.
Qed.

Lemma in_space_found key space m p :
  calculate_feature_id space key ≠ kInvalidId →
  features_ (cache m) !! calculate_feature_id space key = Some p →
  in_space key space m = (p, m).
Proof.
  intros Hid Hp. unfold create_or_get_feature_in_space.
  apply N.eqb_neq in Hid. rewrite Hid.
  unfold mbind, state_bind, gets. by rewrite Hp.
Qed.

Lemma in_space_created key space m :
  calculate_feature_id space key ≠ kInvalidId →
  features_ (cache m) !! calculate_feature_id space key = None →
  in_space key space m =
  (object_at (length (heap m)),
   {| heap := heap m ++ [{| feature_key := key;
                            feature_id := calculate_feature_id space key |}];
      cache := {| spaces_ := spaces_ (cache m);
                  features_ := <[calculate_feature_id space key
                                   := object_at (length (heap m))]>
                                 (features_ (cache m)) |} |}).
Proof.
  intros Hid Hp. unfold create_or_get_feature_in_space.
  apply N.eqb_neq in Hid. rewrite Hid.
  unfold mbind, state_bind, gets. by rewrite Hp.
Qed.

Lemma by_name_unregistered key name m :
  spaces_ (cache m) !! name = None → by_name key name m = (nullptr, m).
Proof.
  intros Hn. unfold create_or_get_feature, mbind, state_bind, gets.
  by rewrite Hn.
Qed.

Lemma by_name_registered key name space m :
  spaces_ (cache m) !! name = Some space →
  by_name key name m = in_space key space m.
Proof.
  intros Hn. unfold create_or_get_feature, mbind, state_bind, gets.
  by rewrite Hn.
Qed.

Lemma deref_non_null m p : is_Some (deref m p) → p ≠ nullptr.
Proof. intros [f Hf] ->. discriminate Hf. Qed.

Lemma deref_alloc m f p :
  is_Some (deref m p) →
  is_Some (deref {| heap := heap m ++ [f]; cache := cache m |} p).
Proof.
  destruct p as [|a]; simpl; [done|]. intros [g Hg]. exists g.
  by apply lookup_app_l_Some.
Qed.

(** The overload that takes the space: null exactly for the invalid id. *)
Lemma in_space_spec key space m :
  cache_wf m →
  ((in_space key space m).1 = nullptr ↔
     calculate_feature_id space key = kInvalidId) ∧
  ((in_space key space m).1 = nullptr → (in_space key space m).2 = m) ∧
  ((in_space key space m).1 ≠ nullptr →
     is_Some (deref (in_space key space m).2 (in_space key space m).1)) ∧
  cache_wf (in_space key space m).2 ∧
  spaces_ (cache (in_space key space m).2) = spaces_ (cache m).
Proof.
  intros Hwf.
  destruct (decide (calculate_feature_id space key = kInvalidId)) as [Hid|Hid].
  { rewrite in_space_invalid by done. simpl. by repeat split. }
  destruct (features_ (cache m) !! calculate_feature_id space key) as [p|] eqn:Hp.
  - rewrite (in_space_found _ _ _ p) by done. simpl.
    pose proof (Hwf _ _ Hp) as Hlive.
    pose proof (deref_non_null _ _ Hlive) as Hnn.
    split; [by split|]. split; [done|]. split; [done|]. by split.
  - rewrite in_space_created by done. simpl.
    split; [by split|]. split; [done|]. split; [|split; [|done]].
    + intros _. exists {| feature_key := key;
                          feature_id := calculate_feature_id space key |}.
      by apply list_lookup_middle.
    + intros id p. simpl. rewrite lookup_insert.
      case_decide as Hcase.
      * intros [= <-]. simpl.
        exists {| feature_key := key;
                  feature_id := calculate_feature_id space key |}.
        by apply list_lookup_middle.
      * intros Hold. specialize (Hwf _ _ Hold).
        exact (deref_alloc m _ p Hwf).
Qed.

(** C9.  On a cache whose stored pointers are live, the by-name
    [create_or_get_feature] returns a null pointer exactly when the name is
    not registered in [spaces_] or the registered space computes
    [kInvalidId] for the key; when it returns null the cache and the heap are
    unchanged; otherwise the pointer returned refers to a [Feature] object;
    and the stored pointers stay live. *)
Theorem create_or_get_feature_null_iff key name m :
  cache_wf m →
  let result := (by_name key name m).1 in
  let m' := (by_name key name m).2 in
  (result = nullptr ↔
     spaces_ (cache m) !! name = None ∨
     ∃ space, spaces_ (cache m) !! name = Some space ∧
              calculate_feature_id space key = kInvalidId) ∧
  (result = nullptr → m' = m ∧ features_ (cache m') = features_ (cache m)) ∧
  (result ≠ nullptr → is_Some (deref m' result)) ∧
  cache_wf m'.
Proof.
  intros Hwf result m'. subst result m'.
  destruct (spaces_ (cache m) !! name) as [space|] eqn:Hn.
  - rewrite (by_name_registered _ _ space) by done.
    destruct (in_space_spec key space m Hwf) as (Hnull & Hsame & Hlive & Hwf' & _).
    split; [|split; [|split]].
    + rewrite Hnull. split.
      * intros Hid. right. by exists space.
      * intros [|(sp & [= <-] & Hid)]; done.
    + intros Hr. by rewrite (Hsame Hr).
    + done.
    + done.
  - rewrite by_name_unregistered by done. simpl.
    split; [split; [by left|done]|]. by repeat split.
Qed.

Lemma call_eq key r m :
  call calculate_feature_id kInvalidId key r m =
  match resolve m r with
  | None => (nullptr, m)
  | Some space => in_space key space m
  end.
Proof.
  destruct r as [name|space]; simpl; [|done].
  destruct (spaces_ (cache m) !! name) as [space|] eqn:Hn.
  - by apply by_name_registered.
  - by apply by_name_unregistered.
Qed.

Lemma in_space_spaces key space m :
  spaces_ (cache (in_space key space m).2) = spaces_ (cache m).
Proof.
  destruct (decide (calculate_feature_id space key = kInvalidId)) as [Hid|Hid].
  { by rewrite in_space_invalid. }
  destruct (features_ (cache m) !! calculate_feature_id space key) as [p|] eqn:Hp.
  - by rewrite (in_space_found _ _ _ p).
  - by rewrite in_space_created.
Qed.

Lemma in_space_twice key space m :
  in_space key space (in_space key space m).2 =
  ((in_space key space m).1, (in_space key space m).2).
Proof.
  destruct (decide (calculate_feature_id space key = kInvalidId)) as [Hid|Hid].
  { rewrite (in_space_invalid key space m) by done. cbn [fst snd].
    by apply in_space_invalid. }
  destruct (features_ (cache m) !! calculate_feature_id space key) as [p|] eqn:Hp.
  - rewrite (in_space_found key space m p) by done. cbn [fst snd].
    by apply in_space_found.
  - rewrite (in_space_created key space m) by done. cbn [fst snd].
    apply in_space_found; [done|]. simpl. apply lookup_insert_eq.
Qed.

(** Two calls with the same key whose space arguments denote the same
    space, or both none: the second call returns what the first returned, a
    null pointer included, and changes nothing. *)
Lemma call_twice key r1 r2 m :
  resolve m r1 = resolve m r2 →
  let first := call calculate_feature_id kInvalidId key r1 m in
  call calculate_feature_id kInvalidId key r2 first.2 = (first.1, first.2).
Proof.
  intros Hsame first. subst first. rewrite (call_eq key r1 m).
  destruct (resolve m r1) as [space|] eqn:Hr1.
  - rewrite call_eq.
    assert (resolve (in_space key space m).2 r2 = Some space) as ->.
    { destruct r2 as [name|sp]; simpl in *; [|done].
      by rewrite in_space_spaces. }
    apply in_space_twice.
  - simpl. rewrite call_eq. by rewrite <- Hsame.
Qed.

(** C10.  Two calls of [create_or_get_feature] with the same key whose
    space arguments, a name or a handle each, denote the same space, for a
    key with a valid id, on a cache whose stored pointers are live.  The
    first call returns a non-null pointer to a live [Feature] object, the
    one cached under the id of the key (made from the key if the id was not
    cached before).  The second call returns the same pointer, to the same
    object, and leaves the cache and the heap as the first call left them:
    no map entry and no object is created. *)
Theorem create_or_get_feature_idempotent key r1 r2 space m :
  cache_wf m →
  resolve m r1 = Some space →
  resolve m r2 = Some space →
  calculate_feature_id space key ≠ kInvalidId →
  let id := calculate_feature_id space key in
  let first := call calculate_feature_id kInvalidId key r1 m in
  let second := call calculate_feature_id kInvalidId key r2 first.2 in
  first.1 ≠ nullptr ∧
  features_ (cache first.2) !! id = Some first.1 ∧
  (∃ feature,
     deref first.2 first.1 = Some feature ∧
     deref second.2 second.1 = Some feature ∧
     (features_ (cache m) !! id = None →
      feature = {| feature_key := key; feature_id := id |})) ∧
  second.1 = first.1 ∧ second.2 = first.2 ∧
  features_ (cache second.2) = features_ (cache first.2).
Proof.
  intros Hwf Hr1 Hr2 Hvalid id first second.
  assert (second = (first.1, first.2)) as ->.
  { subst first second. apply call_twice. by rewrite Hr1, Hr2. }
  subst first. rewrite (call_eq key r1 m), Hr1. cbn [fst snd]. subst id.
  destruct (features_ (cache m) !! calculate_feature_id space key)
    as [p|] eqn:Hp.
  - rewrite (in_space_found key space m p) by done. cbn [fst snd].
    destruct (Hwf _ _ Hp) as [feature Hlive].
    split; [by apply (deref_non_null m), mk_is_Some with feature|].
    split; [done|]. split; [|done].
    exists feature. by repeat split.
  - rewrite (in_space_created key space m) by done. cbn [fst snd].
    split; [done|]. split; [apply lookup_insert_eq|]. split; [|done].
    exists {| feature_key := key;
              feature_id := calculate_feature_id space key |}.
    cbn. rewrite list_lookup_middle by done. by repeat split.
Qed.

End FeatureCacheClaims.

Lemma new_cache_wf : cache_wf new_cache.
Proof. intros id p Hp. simpl in Hp. by rewrite lookup_empty in Hp. Qed.

Import FeatureCacheScenario.

Lemma test_cache_wf : cache_wf test_cache.
Proof. intros id p Hp. simpl in Hp. by rewrite lookup_empty in Hp. Qed.

(** C9 on the cache of the unit tests: key "111" in space "A". *)
Lemma create_or_get_feature_null_iff_witness :
  cache_wf test_cache ∧
  let result :=
    (create_or_get_feature sample_calculate_feature_id sample_kInvalidId
       "111" "A" test_cache).1 in
  let m' :=
    (create_or_get_feature sample_calculate_feature_id sample_kInvalidId
       "111" "A" test_cache).2 in
  (result = nullptr ↔
     spaces_ (cache test_cache) !! "A" = None ∨
     ∃ space, spaces_ (cache test_cache) !! "A" = Some space ∧
              sample_calculate_feature_id space "111" = sample_kInvalidId) ∧
  (result = nullptr →
     m' = test_cache ∧ features_ (cache m') = features_ (cache test_cache)) ∧
  (result ≠ nullptr → is_Some (deref m' result)) ∧
  cache_wf m'.
Proof.
  split; [exact test_cache_wf|].
  exact (create_or_get_feature_null_iff sample_calculate_feature_id
           sample_kInvalidId "111" "A" test_cache test_cache_wf).
Defined.

(** C10 as in [test_get_feature]: "222" first through the handle of space
    "CCC", then through its name. *)
Lemma create_or_get_feature_idempotent_witness :
  cache_wf test_cache ∧
  resolve test_cache (ByHandle space_c) = Some space_c ∧
  resolve test_cache (ByName "CCC") = Some space_c ∧
  sample_calculate_feature_id space_c "222" ≠ sample_kInvalidId ∧
  let id := sample_calculate_feature_id space_c "222" in
  let first :=
    call sample_calculate_feature_id sample_kInvalidId "222"
      (ByHandle space_c) test_cache in
  let second :=
    call sample_calculate_feature_id sample_kInvalidId "222"
      (ByName "CCC") first.2 in
  first.1 ≠ nullptr ∧
  features_ (cache first.2) !! id = Some first.1 ∧
  (∃ feature,
     deref first.2 first.1 = Some feature ∧
     deref second.2 second.1 = Some feature ∧
     (features_ (cache test_cache) !! id = None →
      feature = {| feature_key := "222"; feature_id := id |})) ∧
  second.1 = first.1 ∧ second.2 = first.2 ∧
  features_ (cache second.2) = features_ (cache first.2).
Proof.
  assert (resolve test_cache (ByName "CCC") = Some space_c) as Hname
    by (vm_compute; reflexivity).
  assert (sample_calculate_feature_id space_c "222" ≠ sample_kInvalidId)
    as Hvalid by (vm_compute; discriminate).
  split; [exact test_cache_wf|]. split; [reflexivity|].
  split; [exact Hname|]. split; [exact Hvalid|].
  exact (create_or_get_feature_idempotent sample_calculate_feature_id
           sample_kInvalidId "222" (ByHandle space_c) (ByName "CCC") space_c
           test_cache test_cache_wf eq_refl Hname Hvalid).
Defined.

End FeatureCacheClaims.

(** ** Claims on index start-up *)

Module ServerMainClaims.
Import PostingStore EventIndex ServerMain.

Section ServerMainClaims.
Context {TermWeight : Type}.
Variable restore : Z → Z → string → exception + DocumentIndexManager TermWeight.

(** C6.  With [restore_on_startup] set, if the restoring constructor throws
    [std::ios_base::failure], start-up goes on (no exception escapes) with
    the manager built by the two-argument constructor, whose index has no
    posting, no staged edit and no tracked pair: nothing of the snapshot
    is kept.  The failure and the fallback are logged. *)
Theorem restore_failure_falls_back buckets max_size prefix what :
  restore buckets max_size prefix = inl (ios_base_failure what) →
  let fallback := new_DocumentIndexManager buckets max_size in
  create_index restore true buckets max_size prefix =
    inr (fallback,
         [ {| level := INFO; format := "loading index from snapshot %s";
              argument := Some prefix |};
           {| level := ERROR; format := "failed restore index. reason:%s";
              argument := Some what |};
           {| level := INFO; format := "creating an empty index ...";
              argument := None |} ]) ∧
  (∀ term, lookup term (index_ (event_index fallback)) = []) ∧
  changeset_ (event_index fallback) = [] ∧
  expire_ (event_index fallback) = [].
Proof.
  intros Hthrow fallback. unfold create_index, try_restore.
  rewrite Hthrow. simpl. split; [done|]. split; [|done].
  intros term. unfold lookup. cbn [fallback new_DocumentIndexManager
    event_index empty_event_index index_]. unfold empty_index.
  by rewrite lookup_empty.
Qed.

(** Only [std::ios_base::failure] is caught: any other exception of the
    restoring constructor leaves [server_main], after the "loading index"
    line. *)
Remark other_exception_escapes buckets max_size prefix what :
  restore buckets max_size prefix = inl (other_exception what) →
  create_index restore true buckets max_size prefix =
    inl (other_exception what,
         [ {| level := INFO; format := "loading index from snapshot %s";
              argument := Some prefix |} ]).
Proof. intros Hthrow. unfold create_index, try_restore. by rewrite Hthrow. Qed.

(** A restore that completes is used as it is. *)
Remark restore_success_is_used buckets max_size prefix manager :
  restore buckets max_size prefix = inr manager →
  ∃ log, create_index restore true buckets max_size prefix = inr (manager, log).
Proof.
  intros Hok. unfold create_index, try_restore. rewrite Hok. by eexists.
Qed.

End ServerMainClaims.

(** C6 with the default sizes of [server_main] and a snapshot that cannot
    be read. *)
Lemma restore_failure_falls_back_witness :
  let restore : Z → Z → string → exception + DocumentIndexManager float :=
    λ _ _ _, inl (ios_base_failure "basic_ios::clear") in
  restore 100000%Z 5000000%Z "snapshot" = inl (ios_base_failure "basic_ios::clear") ∧
  let fallback := new_DocumentIndexManager 100000 5000000 in
  create_index restore true 100000 5000000 "snapshot" =
    inr (fallback,
         [ {| level := INFO; format := "loading index from snapshot %s";
              argument := Some "snapshot" |};
           {| level := ERROR; format := "failed restore index. reason:%s";
              argument := Some "basic_ios::clear" |};
           {| level := INFO; format := "creating an empty index ...";
              argument := None |} ]) ∧
  (∀ term, lookup term (index_ (event_index fallback)) = []) ∧
  changeset_ (event_index fallback) = [] ∧
  expire_ (event_index fallback) = [].
Proof.
  intros restore. split; [reflexivity|].
  exact (restore_failure_falls_back restore 100000 5000000 "snapshot"
           "basic_ios::clear" eq_refl).
Defined.

End ServerMainClaims.

(** ** The scenarios, run *)

Module ScenarioRuns.
Import PostingStore BaseIndex EventIndex Scenarios.
Import FeatureCache FeatureCacheScenario.

(** S1: the posting is visible after the first [apply], ... *)
Example s1_visible : lookup 10 (index_ s1_published) = [(100%N, 0.5%float)].
Proof. vm_compute. reflexivity. Qed.

(** ... the second upsert is staged, not visible, ... *)
Example s1_staged :
  lookup 10 (index_ s1_reinserted) = [(100%N, 0.5%float)] ∧
  changeset_ s1_reinserted = [UPSERT 10 100 0.75%float] ∧
  expire_ s1_reinserted = [({| term_id := 10; doc_id := 100 |}, 70%Z)].
Proof. vm_compute. done. Qed.

(** ... an [apply] before the new deadline publishes the new weight, and one
    after the deadline removes the posting. *)
Example s1_replaced :
  lookup 10 (index_ (apply 60 s1_reinserted).2) = [(100%N, 0.75%float)].
Proof. vm_compute. reflexivity. Qed.

Example s1_expired :
  (apply 100 s1_reinserted).1 = (2%Z, 1%Z) ∧
  lookup 10 (index_ (apply 100 s1_reinserted).2) = [].
Proof. vm_compute. done. Qed.

(** S2: with four pairs and [max_size_ = 3], [apply(50)] sheds the pair with
    the lowest deadline although none is due. *)
Example s2_sheds_oldest :
  (apply 50 s2_loaded).1 = (5%Z, 1%Z) ∧
  expire_ (apply 50 s2_loaded).2 =
    [ ({| term_id := 1; doc_id := 2 |}, 200%Z);
      ({| term_id := 1; doc_id := 3 |}, 300%Z);
      ({| term_id := 1; doc_id := 4 |}, 400%Z) ] ∧
  lookup 1 (index_ (apply 50 s2_loaded).2) =
    [(2%N, 1%float); (3%N, 1%float); (4%N, 1%float)].
Proof. vm_compute. done. Qed.

(** [dump] on the S2 state: the mutex history is the one [batch_update]
    left, while the size accessor adds a lock and an unlock to it. *)
Example s2_dump_without_lock :
  changeset_mutex_ s2_loaded = [Lock; Unlock] ∧
  changeset_mutex_ (dump [] s2_loaded).2 = [Lock; Unlock] ∧
  changeset_mutex_ (get_expire_table_size s2_loaded).2
    = [Lock; Unlock; Lock; Unlock].
Proof. vm_compute. done. Qed.

(** [test_create_feature]: "111" in the integer space "A" and "xxx" in the
    string space are created, "yyy" in an integer space is refused. *)
Example test_create_feature :
  let create := create_or_get_feature sample_calculate_feature_id sample_kInvalidId in
  let create_in :=
    create_or_get_feature_in_space sample_calculate_feature_id sample_kInvalidId in
  let '(f1, m1) := create "111" "A" test_cache in
  let '(f2, m2) := create_in "xxx" space_b m1 in
  let '(f3, m3) := create_in "yyy" space_c m2 in
  (feature_key <$> deref m3 f1) = Some "111" ∧
  (feature_id <$> deref m3 f1) = Some (1 * 2 ^ 56 + 111)%N ∧
  (feature_key <$> deref m3 f2) = Some "xxx" ∧
  f3 = nullptr ∧ m3 = m2.
Proof. vm_compute. done. Qed.

(** [test_get_feature]: "222" through the handle and through the name. *)
Example test_get_feature :
  let create := create_or_get_feature sample_calculate_feature_id sample_kInvalidId in
  let create_in :=
    create_or_get_feature_in_space sample_calculate_feature_id sample_kInvalidId in
  let '(f3, m1) := create_in "222" space_c test_cache in
  let '(f4, m2) := create "222" "CCC" m1 in
  f3 = f4 ∧ (feature_key <$> deref m2 f4) = Some "222" ∧ m2 = m1.
Proof. vm_compute. done. Qed.

End ScenarioRuns.

(** ** The process *)

Module MainFacts.
Import ServerMain Main.

Section MainFacts.
Context {Json TermWeight : Type}.
Variable world : World Json TermWeight.
Implicit Types (config : Document Json).

Lemma lifecycle_app t1 t2 : lifecycle (t1 ++ t2) = lifecycle t1 ++ lifecycle t2.
Proof. apply List.filter_app. Qed.

Lemma started_lifecycle t : started t = List.filter is_start (lifecycle t).
Proof.
  unfold started, lifecycle. induction t as [|e t IH]; [done|].
  destruct e; simpl; by rewrite ?IH.
Qed.

Lemma shutdown_lifecycle t :
  shutdown_sequence t = List.filter is_shutdown (lifecycle t).
Proof.
  unfold shutdown_sequence, lifecycle. induction t as [|e t IH]; [done|].
  destruct e; simpl; by rewrite ?IH.
Qed.

Lemma components_lifecycle t :
  List.filter is_component_event t = [] → lifecycle t = [].
Proof.
  unfold lifecycle. induction t as [|e t IH]; [done|].
  destruct e; simpl; try done; by apply IH.
Qed.

Lemma scope_guard_spec {A} (g : Run unit) (rest : Run A) :
  (scope_guard g rest).1 = rest.1 ∧
  (scope_guard g rest).2 = rest.2 ++ (if is_blocked rest.1 then [] else g.2).
Proof. destruct rest as [[a|c|e|] t]; simpl; by rewrite ?app_nil_r. Qed.

(** *** The stages of [server_main] *)

Lemma serve_life :
  (serve world).1 = match wait_for_exit_signal (signals world) with
                    | None => Blocked | Some _ => Returned 0 end ∧
  lifecycle (serve world).2 = match wait_for_exit_signal (signals world) with
                              | None => [] | Some _ => [EvServerStop] end.
Proof. unfold serve. by destruct (wait_for_exit_signal (signals world)). Qed.

Lemma run_server_life config ttl prefix :
  (run_server world config ttl prefix).1 =
    (if serving world config then (serve world).1 else Returned (-1)) ∧
  lifecycle (run_server world config ttl prefix).2 =
    (if start_called world config then [EvServerStart] else [])
    ++ (if serving world config then lifecycle (serve world).2 else []).
Proof.
  unfold run_server, serving, start_called. generalize (serve world). intros [o t].
  destruct (cfg_ranking (members config)) as [j|]; [|done].
  cbn -[lifecycle].
  destruct (create_model world j); [|done]. cbn -[lifecycle].
  destruct (server_initialize world <? 0)%Z; [done|]. cbn -[lifecycle].
  destruct (server_start world <? 0)%Z; [done|]. cbn -[lifecycle].
  done.
Qed.

Lemma run_pipeline_life config config_index prefix :
  let rest := run_server world config
                (default 86400%Z (ix_default_ttl config_index)) prefix in
  (run_pipeline world config config_index prefix).1 = rest.1 ∧
  lifecycle (run_pipeline world config config_index prefix).2 =
    [EvPipelineStart] ++ lifecycle rest.2
    ++ (if is_blocked rest.1 then [] else [EvPipelineStop]).
Proof.
  unfold run_pipeline. cbn -[lifecycle run_server scope_guard].
  match goal with
  | |- context [scope_guard ?g ?r] =>
      destruct (scope_guard_spec g r) as [Ho Ht];
      destruct (scope_guard g r) as [o t]
  end.
  cbn [fst snd] in *. subst o t. split; [done|].
  change (lifecycle (?a :: ?b :: ?c :: ?d :: EvPipelineStart :: ?r))
    with (EvPipelineStart :: lifecycle r).
  rewrite lifecycle_app. cbn [app]. do 2 f_equal.
  by destruct (is_blocked _).
Qed.


Lemma run_index_life config config_index :
  let restore_on_startup := default false (ix_restore_on_startup config_index) in
  let dump_on_exit := default false (ix_dump_on_exit config_index) in
  let prefix := default "" (ix_snapshot_prefix config_index) in
  let interval := default 300%Z (ix_maintain_interval config_index) in
  let rest := run_pipeline world config config_index prefix in
  match create_index (restore world) restore_on_startup
          (default 100000%Z (ix_initial_buckets config_index))
          (default 5000000%Z (ix_max_size config_index)) prefix with
  | inl (e, _) =>
      (run_index world config config_index).1 = Thrown e ∧
      lifecycle (run_index world config config_index).2 = []
  | inr _ =>
      (run_index world config config_index).1 = rest.1 ∧
      lifecycle (run_index world config config_index).2 =
        [EvStartMaintain interval interval] ++ lifecycle rest.2
        ++ (if is_blocked rest.1 then []
            else (if dump_on_exit then [EvDump prefix] else [])
                 ++ [EvStopMaintain])
  end.
Proof.
  unfold run_index, create_index_run.
  cbn -[lifecycle run_pipeline scope_guard feed_index_guard create_index].
  assert (∀ lines, lifecycle (map EvRestoreLog lines) = []) as Hquiet.
  { intros lines. by induction lines. }
  destruct (create_index _ _ _ _ _) as [[e lines]|[index lines]].
  - cbn -[lifecycle]. split; [done|].
    change (lifecycle (?a :: ?b :: ?c :: ?d :: ?e :: ?f :: ?r))
      with (lifecycle r).
    rewrite ?app_nil_r. apply Hquiet.
  - cbn -[lifecycle run_pipeline scope_guard feed_index_guard].
    match goal with
    | |- context [scope_guard ?g ?r] =>
        destruct (scope_guard_spec g r) as [Ho Ht];
        destruct (scope_guard g r) as [o t]
    end.
    cbn [fst snd] in *. subst o t. split; [done|].
    change (lifecycle (?a :: ?b :: ?c :: ?d :: ?e :: ?f :: ?r))
      with (lifecycle r).
    rewrite !lifecycle_app, Hquiet.
    cbn [app].
    change (lifecycle (EvStartMaintain ?i ?j :: ?r))
      with (EvStartMaintain i j :: lifecycle r).
    rewrite lifecycle_app. do 2 f_equal.
    destruct (is_blocked _); [done|].
    unfold feed_index_guard.
    destruct (default false (ix_dump_on_exit config_index)); [|done].
    by destruct (dump_failure world _).
Qed.

Lemma call_spec (body : Run Z) :
  (call body).1 = match body.1 with Returned code => Normal code | o => o end ∧
  (call body).2 = body.2.
Proof. by destruct body as [[a|c|e|] t]. Qed.

(** [server_main] follows the table. *)
Lemma server_main_summary config :
  (server_main world config).1 = (summary world config).1 ∧
  lifecycle (server_main world config).2 = (summary world config).2.
Proof.
  unfold server_main, summary, index_config.
  destruct (call_spec
    (emit (EvSignal SIGPIPE ignore_signal) ;;
     emit (EvSignal SIGHUP ignore_signal) ;;
     emit (EvSignal SIGTERM exit_on_signal) ;;
     emit (EvSignal SIGINT exit_on_signal) ;;
     match cfg_feature_spaces (members config) with
     | None =>
         log LOG_ERROR "features configuration does not exist!" None ;;
         return_ (-1)
     | Some config_feature_spaces =>
     emit EvFeatureSpacesInitialize ;;
     if (feature_spaces_initialize world config_feature_spaces <? 0)%Z then
       log LOG_ERROR "feature cache parsing failed!" None ;;
       return_ (-1)
     else
     match cfg_index (members config) with
     | None =>
         log LOG_ERROR "index configuration does not exist!" None ;;
         return_ (-1)
     | Some config_index => run_index world config config_index
     end
     end)) as [-> ->].
  destruct (cfg_feature_spaces (members config)) as [fs|]; [|done].
  cbn -[lifecycle run_index].
  destruct (feature_spaces_initialize world fs <? 0)%Z; [done|].
  cbn -[lifecycle run_index].
  destruct (cfg_index (members config)) as [ci|] eqn:Hci; [|done].
  pose proof (run_index_life config ci) as Hindex. cbn zeta in Hindex.
  unfold index_created.
  destruct (create_index _ _ _ _ _) as [[e lines]|created].
  { destruct Hindex as [Ho Ht].
    destruct (run_index world config ci) as [o t]. cbn [fst snd] in *.
    subst o. by split. }
  destruct Hindex as [Ho Ht].
  destruct (run_pipeline_life config ci (default "" (ix_snapshot_prefix ci)))
    as [Hpo Hpt]. cbn zeta in Hpo, Hpt.
  destruct (run_server_life config (default 86400%Z (ix_default_ttl ci))
              (default "" (ix_snapshot_prefix ci))) as [Hso Hst].
  destruct serve_life as [Hvo Hvt].
  rewrite Hpo, Hso in Ho. rewrite Hpt, Hpo, Hso, Hst in Ht.
  destruct (run_index world config ci) as [o t]. cbn [fst snd] in *.
  change (lifecycle (?a :: ?b :: ?c :: ?d :: ?e :: t)) with (lifecycle t).
  subst o. rewrite Ht. clear Ht Hpo Hpt Hso Hst.
  unfold serving in *. unfold stop_of, dump_at_exit. rewrite Hci.
  destruct (start_called world config); cbn [andb].
  - destruct (server_start world <? 0)%Z; cbn [negb].
    + split; [done|]. cbn. by rewrite <- !app_assoc.
    + rewrite Hvo, Hvt.
      destruct (wait_for_exit_signal (signals world)); [|done].
      split; [done|]. cbn. by rewrite <- !app_assoc.
  - split; [done|]. cbn. by rewrite <- !app_assoc.
Qed.

Lemma filter_dump_at_exit config :
  List.filter is_shutdown (dump_at_exit config) = dump_at_exit config ∧
  List.filter is_start (dump_at_exit config) = [].
Proof.
  unfold dump_at_exit. destruct (cfg_index (members config)) as [ci|]; [|done].
  by destruct (default false (ix_dump_on_exit ci)).
Qed.

(** X1: when [server_main] returns, with 0 or with -1, the calls that
    shut components down are exactly the stops of the components it
    started, in the reverse order of the starts: the server (only if
    [server.start()] succeeded), then the update pipeline, then the index
    dump if "dump_on_exit" is set, then the maintenance thread. *)
Theorem shutdown_in_reverse_order config code :
  (server_main world config).1 = Normal code →
  shutdown_sequence (server_main world config).2 =
  concat (map (stop_of world config)
            (rev (started (server_main world config).2))).
Proof.
  rewrite shutdown_lifecycle, started_lifecycle.
  destruct (server_main_summary config) as [-> ->].
  unfold summary.
  destruct (index_config world config) as [ci|]; [|done].
  destruct (index_created world ci) as [[e lines]|created]; [done|].
  destruct (filter_dump_at_exit config) as [Hdump Hnostart].
  assert (∀ starts,
            List.filter is_start starts = starts →
            List.filter is_shutdown starts = [] →
            let stops := concat (map (stop_of world config) (rev starts)) in
            List.filter is_shutdown stops = stops →
            List.filter is_start stops = [] →
            List.filter is_shutdown (starts ++ stops) =
            concat (map (stop_of world config)
                      (rev (List.filter is_start (starts ++ stops)))))
    as Hshape.
  { intros starts Hs1 Hs2 stops Hp1 Hp2.
    rewrite !List.filter_app, Hs1, Hs2, Hp1, Hp2. by rewrite app_nil_r. }
  assert (∀ e, List.filter is_shutdown (stop_of world config e)
               = stop_of world config e ∧
               List.filter is_start (stop_of world config e) = []) as Hstop.
  { intros e. destruct e; try done; cbn [stop_of].
    - rewrite !List.filter_app, Hdump, Hnostart. done.
    - by destruct (server_start world <? 0)%Z. }
  unfold serving.
  destruct (start_called world config); cbn [andb];
    [destruct (server_start world <? 0)%Z eqn:Hstart; cbn [negb];
     [|destruct (wait_for_exit_signal (signals world)); [|done]]|].
  all: intros _; cbn [snd]; apply Hshape; [done|done| |];
    cbn [app rev map concat]; rewrite !List.filter_app;
    rewrite ?(proj1 (Hstop _)), ?(proj2 (Hstop _)); done.
Qed.

Lemma in_lifecycle e t : is_lifecycle e = true → In e t ↔ In e (lifecycle t).
Proof. intros He. unfold lifecycle. rewrite filter_In. tauto. Qed.

Lemma server_stop_not_dumped config : ¬ In EvServerStop (dump_at_exit config).
Proof.
  unfold dump_at_exit.
  destruct (cfg_index (members config)) as [ci|]; [|by intros []].
  destruct (default false (ix_dump_on_exit ci)); [|by intros []].
  intros [H|[]]. discriminate H.
Qed.

(** X2: the ways [server_main] ends without an exception.  When it
    returns, it returns 0 or -1: with 0, [server.stop()] has been called;
    with -1, it has not.  When it waits for ever, the maintenance thread,
    the pipeline and the server have been started, in this order, and
    nothing has been shut down.  (Of a run that ends in an exception
    nothing is said.) *)
Theorem server_main_outcome config :
  match (server_main world config).1 with
  | Normal code =>
      (code = 0%Z ∧ In EvServerStop (server_main world config).2) ∨
      (code = (-1)%Z ∧ ¬ In EvServerStop (server_main world config).2)
  | Returned _ => False
  | Thrown _ => True
  | Blocked =>
      shutdown_sequence (server_main world config).2 = [] ∧
      ∃ interval, started (server_main world config).2
                  = [EvStartMaintain interval interval; EvPipelineStart; EvServerStart]
  end.
Proof.
  pose proof (in_lifecycle EvServerStop (server_main world config).2 eq_refl) as Hin.
  rewrite shutdown_lifecycle, started_lifecycle.
  destruct (server_main_summary config) as [Ho Ht]. rewrite Ho, Ht. rewrite Ht in Hin.
  clear Ho Ht. revert Hin. generalize (server_main world config).2. intros t.
  unfold summary.
  destruct (index_config world config) as [ci|];
    [|cbn; intros Hin; right; split; [done|rewrite Hin; intros []]].
  destruct (index_created world ci) as [[e lines]|created]; [done|].
  pose proof (server_stop_not_dumped config) as Hnodump.
  unfold serving.
  destruct (start_called world config); cbn [andb].
  - destruct (server_start world <? 0)%Z eqn:Hstart; cbn [negb].
    + cbn [fst snd app rev map concat stop_of]. rewrite Hstart. cbn [app].
      rewrite app_nil_r. intros Hin. right. split; [done|]. rewrite Hin.
      intros [|[|[|[|H]]]]; try done.
      apply in_app_iff in H as [H|[|[]]]; done.
    + destruct (wait_for_exit_signal (signals world)).
      * cbn [fst snd app rev map concat stop_of]. rewrite Hstart.
        intros Hin. left. split; [done|]. rewrite Hin. cbn. tauto.
      * intros _. split; [done|]. by eexists.
  - cbn [fst snd app rev map concat stop_of]. rewrite app_nil_r.
    intros Hin. right. split; [done|]. rewrite Hin.
    intros [|[|[|H]]]; try done.
    apply in_app_iff in H as [H|[|[]]]; done.
Qed.



(** *** [read_config_file] and [init_log_config] *)

Lemma read_config_file_cases file_name :
  (fopen world file_name = None ∧
   read_config_file world file_name =
     (Normal ((-1)%Z, NullDocument),
      [EvFopen file_name;
       EvStderr "Cannot open config file %s.\n" [ArgS file_name]])) ∨
  (∃ contents code offset,
     fopen world file_name = Some contents ∧
     parse_stream world contents = ParseError code offset ∧
     read_config_file world file_name =
       (Normal ((-1)%Z, ParseError code offset),
        [EvFopen file_name;
         EvStderr "Config file parse error %d at offset %zu.\n"
           [ArgD code; ArgZu offset]])) ∨
  (∃ contents,
     fopen world file_name = Some contents ∧
     (∀ code offset, parse_stream world contents ≠ ParseError code offset) ∧
     read_config_file world file_name =
       (Normal (0%Z, parse_stream world contents),
        [EvFopen file_name; EvFclose file_name])).
Proof.
  unfold read_config_file.
  destruct (fopen world file_name) as [contents|]; [|by left].
  right. destruct (parse_stream world contents) as [|config|c o] eqn:Hparse.
  - right. exists contents. by rewrite Hparse.
  - right. exists contents. by rewrite Hparse.
  - left. by exists contents, c, o.
Qed.

(** X5: [read_config_file] always tries to open the file and returns 0 or
    -1.  It returns 0 exactly when the file opens and parses, and the
    document is then the parsed one; it closes the file exactly when it
    returns 0, so a file that opens but does not parse is left open. *)
Theorem read_config_file_closes_on_success file_name :
  ∃ code doc,
    (read_config_file world file_name).1 = Normal (code, doc) ∧
    In (EvFopen file_name) (read_config_file world file_name).2 ∧
    (code = 0%Z ∨ code = (-1)%Z) ∧
    (code = 0%Z ↔ In (EvFclose file_name) (read_config_file world file_name).2) ∧
    (code = 0%Z ↔
       ∃ contents, fopen world file_name = Some contents ∧
                   doc = parse_stream world contents ∧
                   ∀ c o, parse_stream world contents ≠ ParseError c o).
Proof.
  destruct (read_config_file_cases file_name)
    as [[Hopen ->]|[(contents & c & o & Hopen & Hparse & ->)|(contents & Hopen & Hok & ->)]].
  - exists (-1)%Z, NullDocument. cbn.
    split; [done|]. split; [by left|]. split; [by right|]. split.
    + split; [done|]. intros [|[|[]]]; done.
    + split; [done|]. intros (contents & Hsome & _). congruence.
  - exists (-1)%Z, (ParseError c o). cbn.
    split; [done|]. split; [by left|]. split; [by right|]. split.
    + split; [done|]. intros [|[|[]]]; done.
    + split; [done|]. intros (contents' & Hsome & _ & Hok').
      assert (contents' = contents) as -> by congruence. by destruct (Hok' c o).
  - exists 0%Z, (parse_stream world contents). cbn.
    split; [done|]. split; [by left|]. split; [by left|]. split.
    + split; [|done]. intros _. right. by left.
    + split; [|done]. intros _. by exists contents.
Qed.

Lemma init_log_config_normal file_name config :
  ∃ r, (init_log_config world file_name config).1 = Normal r ∧
       List.filter is_component_event
         (init_log_config world file_name config).2 = [].
Proof.
  unfold init_log_config.
  destruct (cfg_logger_config (members config)); by eexists.
Qed.


(** *** [main] *)

(** The three ways [main] goes: it gives up before [server_main], or it
    runs [server_main] on the document read. *)
Lemma main_cases argv :
  ((main world argv).1 = Normal (-1)%Z ∧
   List.filter is_component_event (main world argv).2 = []) ∨
  (∃ prog file_name contents r,
     argv = [prog; file_name] ∧
     fopen world file_name = Some contents ∧
     (∀ code offset, parse_stream world contents ≠ ParseError code offset) ∧
     (init_log_config world file_name (parse_stream world contents)).1 = Normal r ∧
     (0 <= r)%Z ∧
     let inner := server_main world (parse_stream world contents) in
     (main world argv).1 =
       match inner.1 with
       | Normal code | Returned code => Normal code
       | Thrown _ => Normal (-1)%Z
       | Blocked => Blocked
       end ∧
     lifecycle (main world argv).2 = lifecycle inner.2).
Proof.
  destruct argv as [|prog [|file_name [|x argv]]]; [by left|by left| |by left].
  unfold main. cbn [length Nat.eqb negb].
  change (default "" ([prog; file_name] !! 1%nat)) with file_name.
  destruct (read_config_file_cases file_name)
    as [[Hopen Hread]|[(contents & c & o & Hopen & Hparse & Hread)
                      |(contents & Hopen & Hok & Hread)]].
  - left. rewrite Hread. done.
  - left. rewrite Hread. done.
  - rewrite Hread.
    destruct (init_log_config_normal file_name (parse_stream world contents))
      as (r & Hr & Hquiet).
    cbn -[init_log_config server_main lifecycle List.filter].
    destruct (init_log_config world file_name (parse_stream world contents))
      as [o2 t2] eqn:Hinit. cbn [fst snd] in Hr, Hquiet. subst o2.
    cbn -[server_main lifecycle List.filter].
    destruct (r <? 0)%Z eqn:Hneg.
    + left. cbn -[List.filter]. split; [done|].
      change (List.filter is_component_event (?a :: ?b :: ?c :: ?d :: ?e :: ?t))
        with (List.filter is_component_event t).
      rewrite List.filter_app, Hquiet. reflexivity.
    + right. exists prog, file_name, contents, r.
      split; [done|]. split; [done|]. split; [done|].
      split; [by rewrite Hinit|]. split; [lia|]. cbn zeta.
      unfold call, catch_all, log, emit, return_, mbind, run_bind, mret, run_ret.
      destruct (server_main world (parse_stream world contents)) as [[code|code|e|] t3];
        cbn -[lifecycle List.filter].
      all: try destruct (0 <=? code)%Z.
      all: cbn -[lifecycle List.filter].
      all: split; [done|].
      all: change (lifecycle (?a :: ?b :: ?c :: ?d :: ?e :: ?t)) with (lifecycle t).
      all: rewrite ?lifecycle_app, (components_lifecycle t2 Hquiet); cbn [app].
      all: rewrite ?lifecycle_app; cbn; by rewrite ?app_nil_r.
Qed.


(** X7: [main] touches a component (signal handlers, feature spaces,
    index, pipeline, models, server) only when it was given exactly one
    argument, the file of that name opened and parsed, and the logger was
    initialised with a non-negative result. *)
Theorem main_needs_configuration argv :
  List.filter is_component_event (main world argv).2 ≠ [] →
  ∃ prog file_name contents r,
    argv = [prog; file_name] ∧
    fopen world file_name = Some contents ∧
    (∀ code offset, parse_stream world contents ≠ ParseError code offset) ∧
    (init_log_config world file_name (parse_stream world contents)).1 = Normal r ∧
    (0 <= r)%Z.
Proof.
  intros Hsome.
  destruct (main_cases argv)
    as [[_ Hnone]|(prog & file_name & contents & r & H1 & H2 & H3 & H4 & H5 & _)].
  - done.
  - by exists prog, file_name, contents, r.
Qed.

End MainFacts.

(** X8: whether the dump at exit fails with [std::ios_base::failure] or
    not makes no difference to what [server_main] returns nor to the
    components it starts and stops: the failure is logged and the
    maintenance thread is stopped all the same. *)
Theorem dump_failure_is_harmless {Json TermWeight}
    (world : World Json TermWeight) (f : string → option string)
    (config : Document Json) :
  (server_main (with_dump_failure f world) config).1 = (server_main world config).1 ∧
  lifecycle (server_main (with_dump_failure f world) config).2
  = lifecycle (server_main world config).2.
Proof.
  destruct (server_main_summary (with_dump_failure f world) config) as [-> ->].
  destruct (server_main_summary world config) as [-> ->].
  done.
Qed.

End MainFacts.

(** ** The feature cache over many calls *)

Module FeatureCacheRunsFacts.
Import StateMonad FeatureCache FeatureCacheClaims FeatureCacheRuns.

Section FeatureCacheRunsFacts.
Variable calculate_feature_id : FeatureSpace → string → N.
Variable kInvalidId : N.

Abbreviation in_space := (create_or_get_feature_in_space calculate_feature_id kInvalidId).
Abbreviation call_ := (call calculate_feature_id kInvalidId).

(** The three ways through a call that reaches a space. *)
Lemma in_space_cases key space m :
  let id := calculate_feature_id space key in
  (id = kInvalidId ∧ in_space key space m = (nullptr, m)) ∨
  (id ≠ kInvalidId ∧ ∃ p, features_ (cache m) !! id = Some p ∧
                          in_space key space m = (p, m)) ∨
  (id ≠ kInvalidId ∧ features_ (cache m) !! id = None ∧
   in_space key space m =
     (object_at (length (heap m)),
      {| heap := heap m ++ [{| feature_key := key; feature_id := id |}];
         cache := {| spaces_ := spaces_ (cache m);
                     features_ := <[id := object_at (length (heap m))]>
                                    (features_ (cache m)) |} |})).
Proof.
  intros id. subst id.
  destruct (decide (calculate_feature_id space key = kInvalidId)) as [Hid|Hid].
  { left. split; [done|]. by apply in_space_invalid. }
  right.
  destruct (features_ (cache m) !! calculate_feature_id space key) as [p|] eqn:Hp.
  - left. split; [done|]. exists p. split; [done|]. by apply in_space_found.
  - right. split; [done|]. split; [done|]. by apply in_space_created.
Qed.

Lemma consistent_in_space key space m :
  consistent m → consistent (in_space key space m).2.
Proof.
  intros (Hwf & Hids & Hone & Horph).
  destruct (in_space_cases key space m)
    as [[_ ->]|[(_ & p & _ & ->)|(Hid & Hnone & ->)]]; [done|done|].
  cbn [snd]. split; [|split; [|split]].
  - intros id p. cbn. rewrite lookup_insert. case_decide as Hcase.
    + intros [= <-]. cbn. eexists. by apply list_lookup_middle.
    + intros Hold. destruct (Hwf _ _ Hold) as [f Hf].
      destruct p as [|a]; [done|]. exists f. cbn in *. by apply lookup_app_l_Some.
  - intros id a f. cbn. rewrite lookup_insert. case_decide as Hcase.
    + intros [= <-]. rewrite list_lookup_middle by done. by intros [= <-].
    + intros Hold Hf. destruct (Hwf _ _ Hold) as [g Hg]. cbn in Hg.
      rewrite (lookup_app_l_Some _ _ _ _ Hg) in Hf. injection Hf as <-.
      by apply (Hids id a g).
  - assert (∀ i, features_ (cache m) !! i ≠ Some (object_at (length (heap m))))
      as Hfresh.
    { intros i Hi. destruct (Hwf _ _ Hi) as [f Hf]. cbn in Hf.
      apply lookup_lt_Some in Hf. lia. }
    intros i j p. cbn. rewrite !lookup_insert.
    repeat case_decide; subst; try done.
    + intros [= <-] Hj. by destruct (Hfresh j).
    + intros Hi [= <-]. by destruct (Hfresh i).
    + apply Hone.
  - unfold no_orphans in *. cbn.
    rewrite map_size_insert_None by done. rewrite length_app. cbn. lia.
Qed.

Lemma consistent_call key r m : consistent m → consistent (call_ key r m).2.
Proof.
  intros Hm. rewrite call_eq.
  destruct (resolve m r); [by apply consistent_in_space|done].
Qed.

Lemma calls_cons key r rest m :
  calls calculate_feature_id kInvalidId ((key, r) :: rest) m =
  ((call_ key r m).1
     :: (calls calculate_feature_id kInvalidId rest (call_ key r m).2).1,
   (calls calculate_feature_id kInvalidId rest (call_ key r m).2).2).
Proof.
  change (calls calculate_feature_id kInvalidId ((key, r) :: rest) m) with
    (let '(p, m1) := call_ key r m in
     let '(ps, m2) := calls calculate_feature_id kInvalidId rest m1 in
     (p :: ps, m2)).
  destruct (call_ key r m) as [p m1]. cbn [fst snd].
  by destruct (calls calculate_feature_id kInvalidId rest m1).
Qed.

(** X9: any sequence of [create_or_get_feature] calls, by space name or
    by space handle, keeps the cache consistent: every cached pointer is
    non-null and live, the object cached under an id carries that id, no
    two ids share an object, and every [Feature] ever made is cached. *)
Theorem calls_keep_cache_consistent requests m :
  consistent m →
  consistent (calls calculate_feature_id kInvalidId requests m).2.
Proof.
  revert m. induction requests as [|[key r] rest IH]; intros m Hm; [done|].
  rewrite calls_cons. cbn [snd]. by apply IH, consistent_call.
Qed.

(** What one call changes. *)
Lemma in_space_grows key space m :
  features_ (cache m) ⊆ features_ (cache (in_space key space m).2) ∧
  heap m `prefix_of` heap (in_space key space m).2 ∧
  spaces_ (cache (in_space key space m).2) = spaces_ (cache m) ∧
  (length (heap (in_space key space m).2) =
     if decide (calculate_feature_id space key ≠ kInvalidId ∧
                features_ (cache m) !! calculate_feature_id space key = None)
     then S (length (heap m)) else length (heap m)).
Proof.
  destruct (in_space_cases key space m)
    as [[Hid ->]|[(Hid & p & Hp & ->)|(Hid & Hnone & ->)]]; cbn [snd].
  - split; [done|]. split; [done|]. split; [done|].
    case_decide as H; [by destruct H|done].
  - split; [done|]. split; [done|]. split; [done|].
    case_decide as H; [destruct H; congruence|done].
  - cbn. split; [by apply insert_subseteq|]. split; [by apply prefix_app_r|].
    split; [done|]. rewrite decide_True by done. rewrite length_app. cbn. lia.
Qed.

(** X10: a call of [create_or_get_feature] never disturbs what is there:
    every id stays cached with the same pointer, every live object keeps its
    contents, the spaces are untouched, and at most one [Feature] is made. *)
Theorem call_keeps_earlier_features key r m :
  let m' := (call_ key r m).2 in
  features_ (cache m) ⊆ features_ (cache m') ∧
  heap m `prefix_of` heap m' ∧
  spaces_ (cache m') = spaces_ (cache m) ∧
  length (heap m') <= S (length (heap m)) ∧
  ∀ p f, deref m p = Some f → deref m' p = Some f.
Proof.
  intros m'. subst m'. rewrite call_eq.
  assert (∀ m1 : Memory, heap m `prefix_of` heap m1 →
            ∀ p f, deref m p = Some f → deref m1 p = Some f) as Hderef.
  { intros m1 [extra Hextra] [|a] f; [done|]. cbn. rewrite Hextra.
    apply lookup_app_l_Some. }
  destruct (resolve m r) as [space|].
  - destruct (in_space_grows key space m) as (Hsub & Hpre & Hsp & Hlen).
    split; [done|]. split; [done|]. split; [done|]. split.
    + rewrite Hlen. case_decide; lia.
    + by apply Hderef.
  - cbn [snd]. split; [done|]. split; [done|]. split; [done|]. split; [lia|done].
Qed.

(** The cache maps the id to the pointer returned. *)
Lemma in_space_cached key space m :
  calculate_feature_id space key ≠ kInvalidId →
  features_ (cache (in_space key space m).2) !! calculate_feature_id space key
  = Some (in_space key space m).1.
Proof.
  intros Hvalid.
  destruct (in_space_cases key space m)
    as [[Hid ->]|[(Hid & p & Hp & ->)|(Hid & Hnone & ->)]]; cbn [fst snd].
  - done.
  - done.
  - cbn. apply lookup_insert_eq.
Qed.

(** X11: on a consistent cache, a call whose space is found and whose id
    is valid returns the pointer the cache holds under that id afterwards;
    the object carries that id, and carries the key of the call if the id
    was not cached before. *)
Theorem call_returns_feature_of_id key r space m :
  consistent m →
  resolve m r = Some space →
  calculate_feature_id space key ≠ kInvalidId →
  let id := calculate_feature_id space key in
  let p := (call_ key r m).1 in
  let m' := (call_ key r m).2 in
  features_ (cache m') !! id = Some p ∧
  ∃ f, deref m' p = Some f ∧ feature_id f = id ∧
       (features_ (cache m) !! id = None → feature_key f = key).
Proof.
  intros Hm Hr Hvalid id p m'. subst id p m'. rewrite call_eq, Hr.
  pose proof (in_space_cached key space m Hvalid) as Hcached.
  destruct (consistent_in_space key space m Hm) as (Hwf' & Hids' & _ & _).
  split; [done|].
  destruct (Hwf' _ _ Hcached) as [f Hf]. exists f. split; [done|]. split.
  - destruct (in_space key space m).1 as [|a] eqn:Hp; [done|].
    by apply (Hids' _ a f).
  - intros Hnone. rewrite in_space_created in Hf by done. cbn in Hf.
    rewrite list_lookup_middle in Hf by done. by injection Hf as <-.
Qed.

(** X12: when two keys (possibly of two spaces) have the same valid id
    and the first is requested on a cache that lacks it, the second request
    returns the object of the first, still carrying the first key, and
    changes nothing: the second key is never stored. *)
Theorem first_key_names_the_feature key1 key2 space1 space2 m :
  calculate_feature_id space1 key1 = calculate_feature_id space2 key2 →
  calculate_feature_id space1 key1 ≠ kInvalidId →
  features_ (cache m) !! calculate_feature_id space1 key1 = None →
  let first := in_space key1 space1 m in
  let second := in_space key2 space2 first.2 in
  second.1 = first.1 ∧ second.2 = first.2 ∧
  deref second.2 second.1 =
    Some {| feature_key := key1;
            feature_id := calculate_feature_id space1 key1 |}.
Proof.
  intros Hsame Hvalid Hnone first second. subst first second.
  rewrite (in_space_created _ _ key1 space1 m) by done. cbn [fst snd].
  rewrite (in_space_found _ _ key2 space2 _ (object_at (length (heap m)))).
  - cbn. split; [done|]. split; [done|]. by apply list_lookup_middle.
  - by rewrite <- Hsame.
  - cbn. rewrite <- Hsame. apply lookup_insert_eq.
Qed.

(** X13: on a consistent cache, two successive calls whose ids are valid
    and different return different objects. *)
Theorem different_ids_different_objects key1 key2 r1 r2 space1 space2 m :
  consistent m →
  resolve m r1 = Some space1 → resolve m r2 = Some space2 →
  calculate_feature_id space1 key1 ≠ kInvalidId →
  calculate_feature_id space2 key2 ≠ kInvalidId →
  calculate_feature_id space1 key1 ≠ calculate_feature_id space2 key2 →
  let first := call_ key1 r1 m in
  let second := call_ key2 r2 first.2 in
  second.1 ≠ first.1.
Proof.
  intros Hm Hr1 Hr2 Hv1 Hv2 Hne first second Heq. subst first second.
  rewrite !call_eq in Heq. rewrite Hr1 in Heq. cbn [fst snd] in Heq.
  assert (resolve (in_space key1 space1 m).2 r2 = Some space2) as Hr2'.
  { destruct r2 as [name|sp]; [|done]. cbn in *. by rewrite in_space_spaces. }
  rewrite Hr2' in Heq.
  pose proof (in_space_cached key1 space1 m Hv1) as Hc1.
  pose proof (in_space_cached key2 space2 (in_space key1 space1 m).2 Hv2) as Hc2.
  destruct (in_space_grows key2 space2 (in_space key1 space1 m).2) as (Hsub & _).
  pose proof (lookup_weaken _ _ _ _ Hc1 Hsub) as Hc1'.
  pose proof (consistent_in_space key2 space2 _
                (consistent_in_space key1 space1 m Hm)) as (_ & _ & Hone & _).
  rewrite Heq in Hc2. by destruct (Hne (Hone _ _ _ Hc1' Hc2)).
Qed.

End FeatureCacheRunsFacts.

Lemma new_cache_consistent : consistent new_cache.
Proof.
  split; [apply new_cache_wf|]. split; [|split].
  - intros id a f Hid. cbn in Hid. by rewrite lookup_empty in Hid.
  - intros i j p Hi. cbn in Hi. by rewrite lookup_empty in Hi.
  - done.
Qed.

End FeatureCacheRunsFacts.

(** ** The event index over many calls *)

Module EventIndexRunsFacts.
Import MachineInt MachineIntFacts StateMonad PostingStore BaseIndex EventIndex.
Import EventIndexFacts EventIndexRuns.

Section EventIndexRunsFacts.
Context {TermWeight : Type}.
Implicit Types (s : BaseEventIndex TermWeight) (c : Call TermWeight).

Lemma run_call_mutex c s :
  changeset_mutex_ (run_call c s).2 = changeset_mutex_ s ++ locks_of c ∧
  max_size_ (run_call c s).2 = max_size_ s.
Proof.
  destruct c as [|d t w e|batch|now|dumper]; cbn [locks_of].
  - change (run_call GetExpireTableSize s).2 with (get_expire_table_size s).2.
    rewrite get_expire_table_size_eq. cbn. by rewrite <- app_assoc.
  - change (run_call (Update d t w e) s).2 with (update d t w e s).2.
    rewrite update_eq. cbn. by rewrite <- app_assoc.
  - assert ((run_call (BatchUpdate batch) s).2 = (batch_update batch s).2) as ->.
    { unfold run_call, mbind, state_bind. by destruct (batch_update batch s). }
    rewrite batch_update_eq. cbn.
    rewrite (proj2 (batch_update_loop_index _ _ _)). by rewrite <- app_assoc.
  - assert ((run_call (Apply now) s).2 = (apply now s).2) as ->.
    { unfold run_call, mbind, state_bind. by destruct (apply now s). }
    rewrite apply_eq. cbn. by rewrite <- app_assoc.
  - change (run_call (Dump dumper) s).2 with (dump dumper s).2.
    rewrite dump_eq. cbn. by rewrite app_nil_r.
Qed.

Lemma run_calls_cons c calls s :
  (run_calls (c :: calls) s).2 = (run_calls calls (run_call c s).2).2.
Proof.
  change (run_calls (c :: calls) s) with
    (let '(_, s1) := run_call c s in run_calls calls s1).
  by destruct (run_call c s).
Qed.

Lemma alternates_pairs (calls : list (Call TermWeight)) :
  alternates false (concat (map locks_of calls)) = true.
Proof. induction calls as [|c calls IH]; [done|]. by destruct c. Qed.

(** X14: over any sequence of calls of the public member functions,
    every call of [get_expire_table_size], [update], [batch_update] and
    [apply] locks the changeset mutex once and unlocks it before it
    returns, whatever the size of a batch, and [dump] does not touch the
    mutex; so what the calls add to the history of the mutex alternates
    lock and unlock and ends unlocked.  No call changes [max_size_]. *)
Theorem calls_lock_once_each (calls : list (Call TermWeight)) s :
  let added := concat (map locks_of calls) in
  changeset_mutex_ (run_calls calls s).2 = changeset_mutex_ s ++ added ∧
  alternates false added = true ∧
  max_size_ (run_calls calls s).2 = max_size_ s.
Proof.
  intros added. subst added.
  assert (changeset_mutex_ (run_calls calls s).2
          = changeset_mutex_ s ++ concat (map locks_of calls) ∧
          max_size_ (run_calls calls s).2 = max_size_ s) as [Hm Hx].
  { revert s. induction calls as [|c calls IH]; intros s.
    - cbn. by rewrite app_nil_r.
    - rewrite run_calls_cons. destruct (IH (run_call c s).2) as [-> ->].
      destruct (run_call_mutex c s) as [-> ->]. cbn [map concat].
      by rewrite app_assoc. }
  split; [done|]. split; [apply alternates_pairs|done].
Qed.

(** *** Splitting a batch *)

Lemma batch_update_loop_app batch1 batch2 ret s :
  batch_update_loop (batch1 ++ batch2) ret s =
  batch_update_loop batch2 (batch_update_loop batch1 ret s).1
    (batch_update_loop batch1 ret s).2.
Proof.
  revert ret s. induction batch1 as [|tuple batch1 IH]; intros ret s; [done|].
  cbn [app]. rewrite !batch_update_loop_cons. apply IH.
Qed.

Lemma batch_update_loop_count (batch : list (EventTuple TermWeight)) a s :
  (batch_update_loop batch (to_int a) s).1
  = to_int (a + Z.of_nat (length batch)).
Proof.
  revert a s. induction batch as [|tuple batch IH]; intros a s.
  - cbn. by rewrite Z.add_0_r.
  - rewrite batch_update_loop_cons. unfold int_add.
    rewrite to_int_add_l, IH. f_equal. cbn [length]. lia.
Qed.

Lemma batch_update_loop_same batch ret ret' s1 s2 :
  same_data s1 s2 →
  same_data (batch_update_loop batch ret s1).2 (batch_update_loop batch ret' s2).2.
Proof.
  revert ret ret' s1 s2.
  induction batch as [|tuple batch IH]; intros ret ret' s1 s2 Hsame; [done|].
  rewrite !batch_update_loop_cons. apply IH.
  destruct Hsame as (Hi & Hc & Hx & He). unfold same_data. cbn.
  by rewrite Hi, Hc, Hx, He.
Qed.

Lemma to_int_add_r a b : to_int (a + to_int b) = to_int (a + b).
Proof. rewrite Z.add_comm, to_int_add_l. f_equal. lia. Qed.

(** X15: [batch_update] of a batch cut in two at any place, as two calls,
    leaves the same posting store, changeset, expire table and [max_size_]
    as the one call on the whole batch, and the two results add up (as
    32-bit ints) to the result of the one call; the empty batch returns 0
    and changes none of these. *)
Theorem batch_update_splits (batch1 batch2 : list (EventTuple TermWeight)) s :
  let whole := batch_update (batch1 ++ batch2) s in
  let first := batch_update batch1 s in
  let second := batch_update batch2 first.2 in
  same_data whole.2 second.2 ∧
  whole.1 = int_add first.1 second.1 ∧
  (batch_update [] s).1 = 0%Z ∧ same_data (batch_update [] s).2 s.
Proof.
  intros whole first second. subst whole first second.
  rewrite !batch_update_eq. cbn [fst snd].
  split; [|split; [|split]].
  - match goal with
    | |- same_data (set_mutex ?m1 ?a) (set_mutex ?m2 ?b) =>
        assert (same_data a b) as (Hi & Hc & Hx & He);
        [|unfold same_data; cbn; by rewrite Hi, Hc, Hx, He]
    end.
    rewrite batch_update_loop_app. apply batch_update_loop_same.
    unfold same_data. by cbn.
  - change 0%Z with (to_int 0). rewrite !batch_update_loop_count.
    unfold int_add. rewrite to_int_add_l, to_int_add_r.
    f_equal. rewrite length_app. lia.
  - done.
  - unfold same_data. by cbn.
Qed.

(** *** Dump and restore *)

Variable load_base :
  Z → list (Snapshot.DumpItem TermWeight) →
  ServerMain.exception + (PostingIndex TermWeight * list (Snapshot.DumpItem TermWeight)).
Variable load_expire :
  list (Snapshot.DumpItem TermWeight) →
  ServerMain.exception + (ExpireTable.ExpireTable * list (Snapshot.DumpItem TermWeight)).

(** X16: the restoring constructor reads the snapshot in the order in
    which [dump] writes it.  With loaders that read back what
    [dump_internal] and [ExpireTable::dump] write, the constructor run on
    the output of [dump] gives an index with the same posting store and the
    same expire table, the [max_size_] it was given, and nothing staged:
    edits staged but not applied at the time of the dump are not in the
    snapshot. *)
Theorem restore_reads_back_dump initial_buckets max_size s :
  (∀ idx tbl,
     load_base initial_buckets
       ((dump_internal idx []).2 ++ (ExpireTable.dump tbl []).2)
     = inr (idx, (ExpireTable.dump tbl []).2)) →
  (∀ tbl, load_expire (ExpireTable.dump tbl []).2 = inr (tbl, [])) →
  new_BaseEventIndex load_base load_expire initial_buckets max_size
    (dump [] s).1.2
  = inr (Build_BaseEventIndex (index_ s) [] [] max_size (expire_ s), []).
Proof.
  intros Hbase Hexpire. rewrite dump_eq. cbn [fst snd].
  unfold new_BaseEventIndex.
  change [Snapshot.Expirations (ExpireTable.size (expire_ s)) (expire_ s)]
    with (ExpireTable.dump (TermWeight:=TermWeight) (expire_ s) []).2.
  by rewrite Hbase, Hexpire.
Qed.

End EventIndexRunsFacts.

Lemma read_postings_items {TermWeight}
    (l : list (N * PostingList TermWeight)) count entries :
  read_postings
    (map (λ tl, Snapshot.TermPostings (fst tl) (Z.of_nat (length (snd tl))) (snd tl)) l
     ++ [Snapshot.Expirations count entries])
  = (list_to_map l, [Snapshot.Expirations count entries]).
Proof.
  induction l as [|[term postings] l IH]; [done|].
  cbn [map app read_postings fst snd]. by rewrite IH.
Qed.

Lemma read_postings_dump {TermWeight} (idx : PostingIndex TermWeight)
    (tbl : ExpireTable.ExpireTable) :
  read_postings ((dump_internal idx []).2 ++ (ExpireTable.dump tbl []).2)
  = (idx, (ExpireTable.dump tbl []).2).
Proof.
  unfold dump_internal, ExpireTable.dump. cbn [snd app].
  rewrite read_postings_items. by rewrite list_to_map_to_list.
Qed.

Lemma sample_load_expire_dump {TermWeight} (tbl : ExpireTable.ExpireTable) :
  sample_load_expire (TermWeight:=TermWeight) (ExpireTable.dump tbl []).2
  = inr (tbl, []).
Proof. cbn. by rewrite Z.eqb_refl. Qed.

End EventIndexRunsFacts.

(** ** The added properties, at concrete inputs *)

Module RunWitnesses.
Import PostingStore BaseIndex EventIndex EventIndexRuns EventIndexRunsFacts.
Import FeatureCache FeatureCacheScenario FeatureCacheRuns FeatureCacheRunsFacts.
Import ServerMain Main MainScenario MainFacts.


(** The same run returns -1 for want of a ranking model, with the
    maintenance thread and the pipeline started: the pipeline is stopped,
    the index dumped, the maintenance thread stopped. *)
Lemma shutdown_in_reverse_order_witness :
  let config := Parsed sample_config in
  (server_main sample_world config).1 = Normal (-1)%Z ∧
  shutdown_sequence (server_main sample_world config).2 =
  concat (map (stop_of sample_world config)
            (rev (started (server_main sample_world config).2))).
Proof.
  intros config.
  assert ((server_main sample_world config).1 = Normal (-1)%Z) as Hreturns
    by (vm_compute; reflexivity).
  split; [exact Hreturns|].
  exact (shutdown_in_reverse_order sample_world config (-1)%Z Hreturns).
Defined.

Lemma main_needs_configuration_witness :
  List.filter is_component_event (main sample_world sample_argv).2 ≠ [] ∧
  ∃ prog file_name contents r,
    sample_argv = [prog; file_name] ∧
    fopen sample_world file_name = Some contents ∧
    (∀ code offset, parse_stream sample_world contents ≠ ParseError code offset) ∧
    (init_log_config sample_world file_name (parse_stream sample_world contents)).1
      = Normal r ∧
    (0 <= r)%Z.
Proof.
  assert (List.filter is_component_event (main sample_world sample_argv).2 ≠ [])
    as Hsome by (vm_compute; discriminate).
  split; [exact Hsome|].
  exact (main_needs_configuration sample_world sample_argv Hsome).
Defined.

Lemma test_cache_consistent : consistent test_cache.
Proof.
  split; [apply FeatureCacheClaims.test_cache_wf|]. split; [|split].
  - intros id a f Hid. cbn in Hid. by rewrite lookup_empty in Hid.
  - intros i j p Hi. cbn in Hi. by rewrite lookup_empty in Hi.
  - done.
Qed.

Lemma calls_keep_cache_consistent_witness :
  consistent test_cache ∧
  consistent (calls sample_calculate_feature_id sample_kInvalidId
                test_requests test_cache).2.
Proof.
  split; [exact test_cache_consistent|].
  exact (calls_keep_cache_consistent sample_calculate_feature_id
           sample_kInvalidId test_requests test_cache test_cache_consistent).
Defined.

Lemma call_returns_feature_of_id_witness :
  consistent test_cache ∧
  resolve test_cache (ByName "A") = Some space_a ∧
  sample_calculate_feature_id space_a "111" ≠ sample_kInvalidId ∧
  let id := sample_calculate_feature_id space_a "111" in
  let p := (FeatureCache.call sample_calculate_feature_id sample_kInvalidId "111"
              (ByName "A") test_cache).1 in
  let m' := (FeatureCache.call sample_calculate_feature_id sample_kInvalidId "111"
               (ByName "A") test_cache).2 in
  features_ (cache m') !! id = Some p ∧
  ∃ f, deref m' p = Some f ∧ feature_id f = id ∧
       (features_ (cache test_cache) !! id = None → feature_key f = "111").
Proof.
  assert (sample_calculate_feature_id space_a "111" ≠ sample_kInvalidId) as Hvalid
    by (vm_compute; discriminate).
  split; [exact test_cache_consistent|]. split; [reflexivity|].
  split; [exact Hvalid|].
  exact (call_returns_feature_of_id sample_calculate_feature_id sample_kInvalidId
           "111" (ByName "A") space_a test_cache test_cache_consistent
           eq_refl Hvalid).
Defined.

(** "111" and "0111" are the same number in an integer space. *)
Lemma first_key_names_the_feature_witness :
  sample_calculate_feature_id space_a "111"
    = sample_calculate_feature_id space_a "0111" ∧
  sample_calculate_feature_id space_a "111" ≠ sample_kInvalidId ∧
  features_ (cache test_cache) !! sample_calculate_feature_id space_a "111" = None ∧
  let first :=
    create_or_get_feature_in_space sample_calculate_feature_id sample_kInvalidId
      "111" space_a test_cache in
  let second :=
    create_or_get_feature_in_space sample_calculate_feature_id sample_kInvalidId
      "0111" space_a first.2 in
  second.1 = first.1 ∧ second.2 = first.2 ∧
  deref second.2 second.1 =
    Some {| feature_key := "111";
            feature_id := sample_calculate_feature_id space_a "111" |}.
Proof.
  assert (sample_calculate_feature_id space_a "111"
          = sample_calculate_feature_id space_a "0111") as Hsame
    by (vm_compute; reflexivity).
  assert (sample_calculate_feature_id space_a "111" ≠ sample_kInvalidId) as Hvalid
    by (vm_compute; discriminate).
  assert (features_ (cache test_cache)
            !! sample_calculate_feature_id space_a "111" = None) as Hnone
    by apply lookup_empty.
  split; [exact Hsame|]. split; [exact Hvalid|]. split; [exact Hnone|].
  exact (first_key_names_the_feature sample_calculate_feature_id
           sample_kInvalidId "111" "0111" space_a space_a test_cache
           Hsame Hvalid Hnone).
Defined.

Lemma different_ids_different_objects_witness :
  consistent test_cache ∧
  resolve test_cache (ByName "A") = Some space_a ∧
  resolve test_cache (ByHandle space_b) = Some space_b ∧
  sample_calculate_feature_id space_a "111" ≠ sample_kInvalidId ∧
  sample_calculate_feature_id space_b "xxx" ≠ sample_kInvalidId ∧
  sample_calculate_feature_id space_a "111"
    ≠ sample_calculate_feature_id space_b "xxx" ∧
  let first :=
    FeatureCache.call sample_calculate_feature_id sample_kInvalidId "111" (ByName "A")
      test_cache in
  let second :=
    FeatureCache.call sample_calculate_feature_id sample_kInvalidId "xxx" (ByHandle space_b)
      first.2 in
  second.1 ≠ first.1.
Proof.
  assert (sample_calculate_feature_id space_a "111" ≠ sample_kInvalidId) as Hv1
    by (vm_compute; discriminate).
  assert (sample_calculate_feature_id space_b "xxx" ≠ sample_kInvalidId) as Hv2
    by (vm_compute; discriminate).
  assert (sample_calculate_feature_id space_a "111"
          ≠ sample_calculate_feature_id space_b "xxx") as Hne
    by (vm_compute; discriminate).
  split; [exact test_cache_consistent|]. split; [reflexivity|].
  split; [reflexivity|]. split; [exact Hv1|]. split; [exact Hv2|].
  split; [exact Hne|].
  exact (different_ids_different_objects sample_calculate_feature_id
           sample_kInvalidId "111" "xxx" (ByName "A") (ByHandle space_b)
           space_a space_b test_cache test_cache_consistent eq_refl eq_refl
           Hv1 Hv2 Hne).
Defined.

(** The S2 index after [apply(50)], dumped and restored with the sample
    loaders. *)
Lemma restore_reads_back_dump_witness :
  let s := (apply 50 Scenarios.s2_loaded).2 in
  (∀ (idx : PostingIndex float) tbl,
     sample_load_base 16
       ((dump_internal idx []).2 ++ (ExpireTable.dump tbl []).2)
     = inr (idx, (ExpireTable.dump tbl []).2)) ∧
  (∀ tbl, sample_load_expire (TermWeight:=float) (ExpireTable.dump tbl []).2
          = inr (tbl, [])) ∧
  new_BaseEventIndex sample_load_base sample_load_expire 16 3 (dump [] s).1.2
  = inr (Build_BaseEventIndex (index_ s) [] [] 3 (expire_ s), []).
Proof.
  intros s.
  assert (∀ (idx : PostingIndex float) tbl,
            sample_load_base 16
              ((dump_internal idx []).2 ++ (ExpireTable.dump tbl []).2)
            = inr (idx, (ExpireTable.dump tbl []).2)) as Hbase.
  { intros idx tbl. unfold sample_load_base. by rewrite read_postings_dump. }
  assert (∀ tbl, sample_load_expire (TermWeight:=float) (ExpireTable.dump tbl []).2
                 = inr (tbl, [])) as Hexpire
    by apply sample_load_expire_dump.
  split; [exact Hbase|]. split; [exact Hexpire|].
  exact (restore_reads_back_dump sample_load_base sample_load_expire 16 3 s
           Hbase Hexpire).
Defined.

End RunWitnesses.

